(** * Lanczos eigensolvers: the three kernels of [lanczosEigensolver.py]

    The file embeds [NSI] (normalized simultaneous QR iteration), [IPI]
    (inverse power iteration with shift) and [LanczosTri] (Lanczos
    tridiagonalisation with full re-orthogonalisation) and proves the
    properties the specification states about their control flow, their
    error behaviour and their results.

    The kernels are written once, over an interface of the numerical
    library they call (numpy / scipy): scalar arithmetic ([Scalar]) and the
    LAPACK-backed routines [norm], [qr], [solve] and [sort] ([LinAlg]).
    Theorems about control flow hold for every implementation of that
    interface.  Two implementations are given: IEEE binary64 ([Float64]),
    the arithmetic of numpy, on which concrete runs are evaluated and
    whose laws are proved from the specification of the primitive
    floats, and exact real arithmetic ([Exact]), for comparison.  The
    kernels are written a second time on a store of array objects, where
    allocation, views and in-place assignment are explicit, and shown to
    compute what the first embedding computes. *)

From Stdlib Require Import String.
From Stdlib Require Import Floats.
From Stdlib Require Import Reals Lra.
From Stdlib Require Import ZArith List Bool Lia.
Import ListNotations.

Set Implicit Arguments.

(** ** Outcomes of a call

    A Python call returns a value, raises an exception, or does not come
    back within the fuel the model grants to [while] loops. *)

Inductive exn : Type :=
| ValueError          (* scipy.linalg.norm on an array with infs or NaNs *)
| LinAlgError         (* numpy.linalg.solve on a singular matrix *)
| UnboundLocalError   (* [return(lam)] when the loop never assigned [lam] *)
| TypeError.          (* a name bound to no array of the expected rank *)

Inductive outcome (X : Type) : Type :=
| Ret (x : X)
| Raise (e : exn)
| OutOfFuel.

Arguments Ret {X} x.
Arguments Raise {X} e.
Arguments OutOfFuel {X}.

Definition bind {X Y : Type} (m : outcome X) (k : X -> outcome Y) : outcome Y :=
  match m with
  | Ret x => k x
  | Raise e => Raise e
  | OutOfFuel => OutOfFuel
  end.

Declare Scope outcome_scope.
Delimit Scope outcome_scope with outcome.
Notation "x <- m ;; k" := (bind m (fun x => k))
  (at level 61, m at next level, right associativity) : outcome_scope.
Notation "' p <- m ;; k" := (bind m (fun p => k))
  (at level 61, p pattern, m at next level, right associativity) : outcome_scope.
Local Open Scope outcome_scope.

(** ** Scalars

    The float64 values of numpy, with the operations the kernels and the
    library use.  Python ints that meet floats ([10], [1], [-3000], [0])
    enter through [of_Z]. *)

Class Scalar : Type := {
  num : Type;
  add : num -> num -> num;
  sub : num -> num -> num;
  mul : num -> num -> num;
  div : num -> num -> num;
  opp : num -> num;
  abs : num -> num;
  sqrt : num -> num;
  gtb : num -> num -> bool;       (* x > y *)
  eqb : num -> num -> bool;       (* x == y *)
  is_finite : num -> bool;        (* neither inf nor NaN *)
  of_Z : Z -> num;
  tol_default : num               (* the literal 1E-14 *)
}.

Declare Scope num_scope.
Delimit Scope num_scope with num.
Notation "x [+] y" := (add x y) (at level 50, left associativity) : num_scope.
Notation "x [-] y" := (sub x y) (at level 50, left associativity) : num_scope.
Notation "x [*] y" := (mul x y) (at level 40, left associativity) : num_scope.
Notation "x [/] y" := (div x y) (at level 40, left associativity) : num_scope.
Local Open Scope num_scope.

(** ** Arrays

    A 1-D array is the list of its entries, a 2-D array the list of its
    rows.  The functions below are numpy's elementwise and structural
    operations, which involve no LAPACK routine.  A 2-D array without
    rows keeps no record of its number of columns ([np.zeros((0,1))] is
    [[]]): the statements on shapes and on returned matrices are made
    for [n >= 1]. *)

Section Arrays.
Context {F : Scalar}.

Definition vec : Type := list num.
Definition matrix : Type := list (list num).

Definition zero : num := of_Z 0.
Definition one : num := of_Z 1.

(** [A.shape[0]] *)
Definition shape0 (A : matrix) : nat := length A.
Definition ncols (A : matrix) : nat :=
  match A with [] => 0 | row :: _ => length row end.

(** An [n] by [k] array: [n] rows, each of [k] entries. *)
Definition has_shape (n k : nat) (M : matrix) : Prop :=
  length M = n /\ Forall (fun row => length row = k) M.

(** As many columns in each row as there are rows. *)
Definition is_square (B : matrix) : bool :=
  forallb (fun row => Nat.eqb (length row) (length B)) B.

(** [np.ones(n)], [np.zeros((n,k))], [np.identity(n)] *)
Definition ones (n : nat) : vec := repeat one n.
Definition zeros (n k : nat) : matrix := repeat (repeat zero k) n.
Definition identity (n : nat) : matrix :=
  map (fun i => map (fun j => if Nat.eqb i j then one else zero) (seq 0 n))
      (seq 0 n).

Fixpoint zip_with {X Y Z : Type} (f : X -> Y -> Z) (xs : list X) (ys : list Y)
  : list Z :=
  match xs, ys with
  | x :: xs', y :: ys' => f x y :: zip_with f xs' ys'
  | _, _ => []
  end.

(** [v / c], [c * v], [u - v] on 1-D arrays; [c * M], [M - N] on 2-D. *)
Definition vdiv (v : vec) (c : num) : vec := map (fun x => x [/] c) v.
Definition smul (c : num) (v : vec) : vec := map (fun x => c [*] x) v.
Definition vsub (u v : vec) : vec := zip_with sub u v.
Definition mscale (c : num) (M : matrix) : matrix := map (smul c) M.
Definition msub (M N : matrix) : matrix := zip_with vsub M N.

(** The sum of the entries, left to right; [0.0] for the empty array. *)
Definition vsum (v : vec) : num :=
  match v with
  | [] => zero
  | x :: rest => fold_left add rest x
  end.

(** [u.T @ v] for 1-D arrays: the inner product. *)
Definition dot (u v : vec) : num := vsum (zip_with mul u v).

Definition col (j : nat) (M : matrix) : vec := map (fun row => nth j row zero) M.

(** [M.T] *)
Definition transpose (M : matrix) : matrix :=
  map (fun j => col j M) (seq 0 (ncols M)).

(** [A @ v] and [A @ B] *)
Definition matvec (A : matrix) (v : vec) : vec := map (fun row => dot row v) A.
Definition matmul (A B : matrix) : matrix :=
  map (fun row => map (fun c => dot row c) (transpose B)) A.

(** [np.diagonal(M)] *)
Definition diagonal (M : matrix) : vec :=
  map (fun i => nth i (nth i M []) zero) (seq 0 (Nat.min (length M) (ncols M))).

(** [np.reshape(q,(n,1))]: the column holding [q]. *)
Definition reshape_col (q : vec) : matrix := map (fun x => [x]) q.

(** [np.hstack((V, C))]: the rows of [V] extended by the rows of [C]. *)
Definition hstack (V C : matrix) : matrix := zip_with (@app num) V C.

(** [V[:,0] = q]: the first entry of each row replaced. *)
Definition set_col0 (V : matrix) (q : vec) : matrix :=
  zip_with (fun row x => x :: tl row) V q.

End Arrays.

(** ** The LAPACK-backed routines

    [norm] is [scipy.linalg.norm], which raises [ValueError] on an array
    that holds an inf or a NaN; on a Python scalar it works on the
    one-element array.  [qr] is [numpy.linalg.qr] (reduced mode), [solve]
    is [numpy.linalg.solve], which raises [LinAlgError] on a singular
    matrix, and [sort] is [np.sort]. *)

Class LinAlg (F : Scalar) : Type := {
  norm : vec -> outcome num;
  qr : matrix -> outcome (matrix * matrix);
  solve : matrix -> vec -> outcome vec;
  sort : vec -> vec
}.

(** ** The kernels *)

Section Kernels.
Context {F : Scalar} {L : LinAlg F}.

(** *** NSI: normalized simultaneous QR iteration

    The variables the [while] loop of [NSI] reads and writes.  [lam] is
    unbound until the body has run once. *)

Record NSI_state : Type := {
  nsi_Q : matrix;
  nsi_residual : num;
  nsi_lprev : vec;
  nsi_ctr : Z;
  nsi_lam : option vec
}.

Definition NSI_init (A : matrix) : NSI_state :=
  let m := shape0 A in
  {| nsi_Q := identity m;
     nsi_residual := of_Z 10;
     nsi_lprev := ones m;
     nsi_ctr := 0;
     nsi_lam := None |}.

(** The loop test [norm(residual) > tol]. *)
Definition NSI_guard (tol : num) (st : NSI_state) : outcome bool :=
  nr <- norm [nsi_residual st] ;;
  Ret (gtb nr tol).

(** One pass through the body, up to and including [ctr += 1]. *)
Definition NSI_body (A : matrix) (st : NSI_state) : outcome NSI_state :=
  ' (Q, _) <- qr (matmul A (nsi_Q st)) ;;
  let lam := diagonal (matmul (matmul (transpose Q) A) Q) in
  residual <- norm (vsub (nsi_lprev st) (sort lam)) ;;
  Ret {| nsi_Q := Q;
         nsi_residual := residual;
         nsi_lprev := sort lam;
         nsi_ctr := nsi_ctr st + 1;
         nsi_lam := Some lam |}.

(** How the loop was left: its test failed, or [break] was taken. *)
Inductive loop_exit : Type := ByTolerance | ByCap.

Fixpoint NSI_loop (fuel : nat) (A : matrix) (tol : num) (maxiter : Z)
    (st : NSI_state) : outcome (NSI_state * loop_exit) :=
  match fuel with
  | O => OutOfFuel
  | S fuel' =>
      go <- NSI_guard tol st ;;
      if go then
        st' <- NSI_body A st ;;
        if (nsi_ctr st' =? maxiter)%Z then Ret (st', ByCap)
        else NSI_loop fuel' A tol maxiter st'
      else Ret (st, ByTolerance)
  end.

(** [return(lam)] *)
Definition return_lam {X : Type} (lam : option X) : outcome X :=
  match lam with
  | Some l => Ret l
  | None => Raise UnboundLocalError
  end.

(** The run with its final state and exit kept for inspection. *)
Definition NSI_run (fuel : nat) (A : matrix) (tol : num) (maxiter : Z)
  : outcome (NSI_state * loop_exit) :=
  NSI_loop fuel A tol maxiter (NSI_init A).

Definition NSI (fuel : nat) (A : matrix) (tol : num) (maxiter : Z) : outcome vec :=
  ' (st, _) <- NSI_run fuel A tol maxiter ;;
  return_lam (nsi_lam st).

(** The state after [k] passes through the body, whatever the tests say. *)
Fixpoint NSI_iter (A : matrix) (k : nat) : outcome NSI_state :=
  match k with
  | O => Ret (NSI_init A)
  | S k' => st <- NSI_iter A k' ;; NSI_body A st
  end.

(** After the first pass [lprev] holds the sorted copy of [lam]; before
    it, the all-ones vector. *)
Definition lprev_of (A : matrix) (st : NSI_state) : vec :=
  match nsi_lam st with
  | Some l => sort l
  | None => ones (shape0 A)
  end.

(** The library calls of the first [n] passes raise nothing. *)
Definition NSI_calls_succeed (A : matrix) (tol : num) (n : nat) : Prop :=
  forall k st, k < n -> NSI_iter A k = Ret st ->
    (exists go, NSI_guard tol st = Ret go) /\
    (exists st', NSI_body A st = Ret st').

(** *** IPI: inverse power iteration with shift *)

Record IPI_state : Type := {
  ipi_x : vec;
  ipi_lam_old : num;
  ipi_err : num;
  ipi_lam : option num;
  ipi_passes : nat        (* passes through the body so far; not a program variable *)
}.

(** [s = -3000] *)
Definition IPI_s : num := of_Z (-3000).

(** [B = A - s*np.identity(n)] *)
Definition IPI_B (A : matrix) : matrix :=
  msub A (mscale IPI_s (identity (shape0 A))).

Definition IPI_init (A : matrix) : IPI_state :=
  {| ipi_x := ones (shape0 A);
     ipi_lam_old := of_Z 1;
     ipi_err := of_Z 1;
     ipi_lam := None;
     ipi_passes := 0 |}.

Definition IPI_body (A : matrix) (st : IPI_state) : outcome IPI_state :=
  nx <- norm (ipi_x st) ;;
  let u := vdiv (ipi_x st) nx in
  x <- solve (IPI_B A) u ;;
  let mu := dot u x in
  let lam := (of_Z 1 [/] mu) [+] IPI_s in
  Ret {| ipi_x := x;
         ipi_lam_old := lam;
         ipi_err := abs (ipi_lam_old st [-] lam);
         ipi_lam := Some lam;
         ipi_passes := S (ipi_passes st) |}.

Fixpoint IPI_loop (fuel : nat) (A : matrix) (tol : num) (st : IPI_state)
  : outcome IPI_state :=
  match fuel with
  | O => OutOfFuel
  | S fuel' =>
      if gtb (ipi_err st) tol then
        st' <- IPI_body A st ;;
        IPI_loop fuel' A tol st'
      else Ret st
  end.

Definition IPI_run (fuel : nat) (A : matrix) (tol : num) (maxiter : Z)
  : outcome IPI_state :=
  IPI_loop fuel A tol (IPI_init A).

Definition IPI (fuel : nat) (A : matrix) (tol : num) (maxiter : Z) : outcome num :=
  st <- IPI_run fuel A tol maxiter ;;
  return_lam (ipi_lam st).

(** The state after [k] passes through the body, whatever the test says. *)
Fixpoint IPI_iter (A : matrix) (k : nat) : outcome IPI_state :=
  match k with
  | O => Ret (IPI_init A)
  | S k' => st <- IPI_iter A k' ;; IPI_body A st
  end.

(** *** The inverse power iterator as the specification words it

    [InversePowerEigenvalue(A, shift, tol)]: the shift [s] is an argument,
    [B = A - s*I], each iteration normalizes [u = x/|x|], solves
    [B x = u], takes [mu = u.T x] and [lam = 1/mu + s], and the loop stops
    when [|lam - lam_previous| < tol].  The specification names no first
    [lam_previous]; the [1] of the reference is used. *)

Definition shifted_matrix (A : matrix) (s : num) : matrix :=
  msub A (mscale s (identity (shape0 A))).

Definition shifted_pass (A : matrix) (s : num) (st : IPI_state)
  : outcome IPI_state :=
  nx <- norm (ipi_x st) ;;
  let u := vdiv (ipi_x st) nx in
  x <- solve (shifted_matrix A s) u ;;
  let mu := dot u x in
  let lam := (of_Z 1 [/] mu) [+] s in
  Ret {| ipi_x := x;
         ipi_lam_old := lam;
         ipi_err := abs (lam [-] ipi_lam_old st);
         ipi_lam := Some lam;
         ipi_passes := S (ipi_passes st) |}.

Fixpoint shifted_loop (fuel : nat) (A : matrix) (s tol : num) (st : IPI_state)
  : outcome IPI_state :=
  match fuel with
  | O => OutOfFuel
  | S fuel' =>
      st' <- shifted_pass A s st ;;
      if gtb tol (ipi_err st') then Ret st'
      else shifted_loop fuel' A s tol st'
  end.

Definition InversePowerEigenvalue (fuel : nat) (A : matrix) (shift tol : num)
  : outcome num :=
  st <- shifted_loop fuel A shift tol (IPI_init A) ;;
  return_lam (ipi_lam st).

(** *** LanczosTri: Lanczos tridiagonalisation *)

Record Lanczos_state : Type := {
  lz_q : vec;
  lz_r : vec;
  lz_a1 : num;
  lz_b1 : num;
  lz_V : matrix;
  lz_ctr : Z
}.

(** What the caller gets: the returned array and what was printed. *)
Record Lanczos_result : Type := {
  returned : matrix;
  printed : list string
}.

Definition breakdown_warning : string := "WARNING: Lanczos ended due to b1 = 0".

(** The statements before the [for] loop. *)
Definition Lanczos_init (A : matrix) : outcome Lanczos_state :=
  let n := shape0 A in
  let x := ones n in
  let V := zeros n 1 in
  nx <- norm x ;;
  let q := vdiv x nx in
  let V := set_col0 V q in
  let r := matvec A q in
  let a1 := dot q r in
  let r := vsub r (smul a1 q) in
  b1 <- norm r ;;
  Ret {| lz_q := q; lz_r := r; lz_a1 := a1; lz_b1 := b1; lz_V := V; lz_ctr := 0 |}.

(** One pass through the loop body, up to and including [ctr+=1]. *)
Definition Lanczos_step (A : matrix) (st : Lanczos_state) : outcome Lanczos_state :=
  let v := lz_q st in
  let q := vdiv (lz_r st) (lz_b1 st) in
  let r := vsub (matvec A q) (smul (lz_b1 st) v) in
  let a1 := dot q r in
  let r := vsub r (smul a1 q) in
  b1 <- norm r ;;
  let V := hstack (lz_V st) (reshape_col q) in
  ' (Q, _) <- qr V ;;
  Ret {| lz_q := q; lz_r := r; lz_a1 := a1; lz_b1 := b1; lz_V := Q;
         lz_ctr := lz_ctr st + 1 |}.

(** [T = V.T @ A @ V] *)
Definition Lanczos_T (A V : matrix) : matrix :=
  matmul (matmul (transpose V) A) V.

(** The [for] loop with [steps] passes left, then the final statements. *)
Fixpoint Lanczos_loop (steps : nat) (A : matrix) (st : Lanczos_state)
  : outcome Lanczos_result :=
  match steps with
  | O => Ret {| returned := Lanczos_T A (lz_V st); printed := [] |}
  | S steps' =>
      st' <- Lanczos_step A st ;;
      if eqb (lz_b1 st') zero
      then Ret {| returned := lz_V st'; printed := [breakdown_warning] |}
      else Lanczos_loop steps' A st'
  end.

(** [range(2,n+1)] has [n-1] elements ([0] when [n] is [0]). *)
Definition LanczosTri (A : matrix) : outcome Lanczos_result :=
  st <- Lanczos_init A ;;
  Lanczos_loop (shape0 A - 1) A st.

(** The state after [k] passes through the loop body, whatever [b1] was. *)
Fixpoint Lanczos_iter (A : matrix) (k : nat) : outcome Lanczos_state :=
  match k with
  | O => Lanczos_init A
  | S k' =>
      st <- Lanczos_iter A k' ;;
      Lanczos_step A st
  end.

(** [init] and the first [k] passes raise nothing, and after none of
    these passes is [b1 == 0]: no breakdown. *)
Definition Lanczos_passes_clean (A : matrix) (k : nat) : Prop :=
  (exists st, Lanczos_iter A 0 = Ret st) /\
  forall j, 1 <= j <= k ->
    exists st, Lanczos_iter A j = Ret st /\ eqb (lz_b1 st) zero = false.

(** What reduced-mode QR promises about the shape of its first factor:
    for an [n] by [k] argument with [k <= n], [Q] is [n] by [k]. *)
Definition qr_keeps_shape : Prop :=
  forall (M Q R : matrix) (n k : nat),
    has_shape n k M -> k <= n -> qr M = Ret (Q, R) -> has_shape n k Q.

End Kernels.

(** ** A reference implementation of the library routines

    Written over any [Scalar], after the LAPACK routines numpy and scipy
    call: the 2-norm with scipy's finiteness check, Householder QR
    (dgeqr2 / dorg2r, reduced mode) and LU with partial pivoting (dgesv).
    The scaling that BLAS and LAPACK add against overflow and underflow
    is left out: [ref_norm] is the square root of the plain sum of
    squares, which is [inf] or [0] where a square overflows or
    underflows and scipy's value is finite and not zero.  The runs
    evaluated in binary64 stay clear of these ranges, and statements for
    all inputs name the condition where they depend on it. *)

Section Reference.
Context {F : Scalar}.

Definition ref_norm (v : vec) : outcome num :=
  if forallb is_finite v
  then Ret (sqrt (vsum (map (fun x => x [*] x) v)))
  else Raise ValueError.

(** Ascending order, NaNs last. *)
Fixpoint insert_sorted (x : num) (l : vec) : vec :=
  match l with
  | [] => [x]
  | y :: l' =>
      if gtb x y || negb (eqb x x) then y :: insert_sorted x l' else x :: l
  end.

Definition ref_sort (v : vec) : vec := fold_right insert_sorted [] v.

(** The reflector [H = I - tau * w * w.T] that clears column [i] of [M]
    below the diagonal (dlarfg); [tau = 0] stands for [H = I]. *)
Definition reflector (i : nat) (M : matrix) : num * vec :=
  match skipn i (col i M) with
  | [] => (zero, repeat zero (length M))
  | alpha :: tail =>
      let xnorm := sqrt (vsum (map (fun t => t [*] t) tail)) in
      if eqb xnorm zero
      then (zero, repeat zero i ++ one :: map (fun _ => zero) tail)
      else
        let nrm := sqrt (alpha [*] alpha [+] xnorm [*] xnorm) in
        let beta := if gtb zero alpha then nrm else opp nrm in
        let tau := (beta [-] alpha) [/] beta in
        let scal := one [/] (alpha [-] beta) in
        (tau, repeat zero i ++ one :: map (fun t => t [*] scal) tail)
  end.

(** [H @ M] for a reflector [H] (dlarf). *)
Definition reflect (h : num * vec) (M : matrix) : matrix :=
  let (tau, w) := h in
  if eqb tau zero then M
  else
    let t := map (fun c => dot w c) (transpose M) in
    zip_with (fun wi row => zip_with (fun m tj => m [-] wi [*] (tau [*] tj)) row t)
             w M.

Fixpoint qr_reduce (i steps : nat) (M : matrix) : list (num * vec) * matrix :=
  match steps with
  | O => ([], M)
  | S steps' =>
      let h := reflector i M in
      let (hs, R) := qr_reduce (S i) steps' (reflect h M) in
      (h :: hs, R)
  end.

(** The upper triangle, zeros below the diagonal. *)
Definition triu (M : matrix) : matrix :=
  zip_with (fun i row =>
              zip_with (fun j x => if Nat.ltb j i then zero else x)
                       (seq 0 (length row)) row)
           (seq 0 (length M)) M.

Definition ref_qr (M : matrix) : outcome (matrix * matrix) :=
  let m := length M in
  let k := Nat.min m (ncols M) in
  let (hs, R) := qr_reduce 0 k M in
  let Q := fold_right reflect (map (firstn k) (identity m)) hs in
  Ret (Q, triu (firstn k R)).

(** The row whose first entry is largest in absolute value, the first
    such row among equals (idamax). *)
Fixpoint pivot_index_from (rows : matrix) (i best : nat) (bestv : num) : nat :=
  match rows with
  | [] => best
  | r :: rest =>
      let a := abs (hd zero r) in
      if gtb a bestv then pivot_index_from rest (S i) i a
      else pivot_index_from rest (S i) best bestv
  end.

Definition pivot_index (rows : matrix) : nat :=
  match rows with
  | [] => 0
  | r :: rest => pivot_index_from rest 1 0 (abs (hd zero r))
  end.

(** Rows [0] and [p] exchanged. *)
Definition swap_first (p : nat) (rows : matrix) : matrix :=
  match p, rows with
  | S p', r0 :: rest => nth p' rest [] :: firstn p' rest ++ r0 :: skipn p rest
  | _, _ => rows
  end.

(** Elimination on the rows [coefficients ++ [right-hand side]]; the
    result lists, for each unknown, the row that determines it from the
    later ones.  An exactly zero pivot is a singular matrix. *)
Fixpoint eliminate (n : nat) (rows : matrix) : outcome matrix :=
  match n with
  | O => Ret []
  | S n' =>
      match swap_first (pivot_index rows) rows with
      | [] => Ret []
      | p :: rest =>
          let piv := hd zero p in
          if eqb piv zero then Raise LinAlgError
          else
            let below r :=
              let l := hd zero r [*] (one [/] piv) in
              tl (vsub r (smul l p)) in
            up <- eliminate n' (map below rest) ;;
            Ret (p :: up)
      end
  end.

Fixpoint back_substitute (up : matrix) : vec :=
  match up with
  | [] => []
  | row :: rest =>
      let xs := back_substitute rest in
      let piv := hd zero row in
      let y := last (tl row) zero in
      let coeffs := removelast (tl row) in
      match coeffs with
      | [] => (y [/] piv) :: xs
      | _ => ((y [-] dot coeffs xs) [/] piv) :: xs
      end
  end.

Definition ref_solve (B : matrix) (u : vec) : outcome vec :=
  if negb (is_square B) then Raise LinAlgError
  else if negb (Nat.eqb (length u) (length B)) then Raise ValueError
  else
    up <- eliminate (length B) (zip_with (fun row y => row ++ [y]) B u) ;;
    Ret (back_substitute up).

#[export] Instance reference : LinAlg F := {
  norm := ref_norm;
  qr := ref_qr;
  solve := ref_solve;
  sort := ref_sort
}.

End Reference.

(** ** IEEE binary64 *)

Module Float64.

Definition finite (x : float) : bool :=
  match PrimFloat.classify x with
  | FloatClass.NaN | FloatClass.PInf | FloatClass.NInf => false
  | _ => true
  end.

(** Exact for the integers the kernels use (all below [2^53]). *)
Definition float_of_Z (z : Z) : float :=
  match z with
  | Z0 => PrimFloat.zero
  | Zpos _ => PrimFloat.of_uint63 (Uint63.of_Z z)
  | Zneg _ => PrimFloat.opp (PrimFloat.of_uint63 (Uint63.of_Z (Z.opp z)))
  end.

#[export] Instance scalar : Scalar := {
  num := float;
  add := PrimFloat.add;
  sub := PrimFloat.sub;
  mul := PrimFloat.mul;
  div := PrimFloat.div;
  opp := PrimFloat.opp;
  abs := PrimFloat.abs;
  sqrt := PrimFloat.sqrt;
  gtb := fun x y => PrimFloat.ltb y x;
  eqb := PrimFloat.eqb;
  is_finite := finite;
  of_Z := float_of_Z;
  tol_default := 0x1.6849b86a12b9bp-47%float   (* 1E-14 *)
}.

#[export] Instance linalg : LinAlg scalar := reference.

(** Inputs of the runs evaluated below. *)
Definition diag21 : matrix := [[2; 0]; [0; 1]]%float.
Definition zero2 : matrix := [[0; 0]; [0; 0]]%float.
Definition one5 : matrix := [[5]]%float.
Definition singular_at_shift : matrix := [[-3000]]%float.
Definition sym2 : matrix := [[2; 1]; [1; 3]]%float.
Definition one1096 : matrix := [[1096]]%float.
Definition identity4 : matrix :=
  [[1; 0; 0; 0]; [0; 1; 0; 0]; [0; 0; 1; 0]; [0; 0; 0; 1]]%float.

End Float64.


(** ** Exact real arithmetic

    Every value is finite, so [norm] never raises; [x == y] and [x > y]
    are the relations of the reals.  numpy computes in binary64: what is
    proved over the reals holds of the code only so far as rounding,
    overflow and NaN play no part in it, and is stated for comparison. *)

Module Exact.

Definition Rgtb (x y : R) : bool := if Rgt_dec x y then true else false.
Definition Reqb (x y : R) : bool := if Req_dec_T x y then true else false.

#[export] Instance scalar : Scalar := {
  num := R;
  add := Rplus;
  sub := Rminus;
  mul := Rmult;
  div := Rdiv;
  opp := Ropp;
  abs := Rabs;
  sqrt := R_sqrt.sqrt;
  gtb := Rgtb;
  eqb := Reqb;
  is_finite := fun _ => true;
  of_Z := IZR;
  tol_default := (1 / 10 ^ 14)%R
}.

#[export] Instance linalg : LinAlg scalar := reference.

End Exact.

(** ** The kernels on a store of array objects

    numpy arrays are objects: a name holds a reference, an operator or a
    library call allocates its result, a view ([.T], [np.reshape],
    [np.diagonal]) is a new object on the memory of its base, and an
    indexed assignment writes into an existing object.  The kernels are
    written again with every array in a store, to see which objects a call
    writes and what it hands back.  A view is given the entries it shows
    when it is made: no kernel writes into an object once a view of it
    exists. *)

Section Store.
Context {F : Scalar} {L : LinAlg F}.

Definition loc : Type := nat.

Inductive ndarray : Type :=
| Arr1 (v : vec)
| Arr2 (M : matrix).

Record object : Type := {
  base : option loc;        (* [Some b] for a view on the memory of [b] *)
  data : ndarray
}.

Record heap : Type := {
  next : loc;               (* the next free reference *)
  cell : loc -> option object
}.

Definition own (d : ndarray) : object := {| base := None; data := d |}.

(** A statement: an outcome and the store it leaves. *)
Definition stmt (X : Type) : Type := heap -> outcome X * heap.

Definition ret {X : Type} (x : X) : stmt X := fun h => (Ret x, h).

Definition lift {X : Type} (m : outcome X) : stmt X := fun h => (m, h).

Definition seq_stmt {X Y : Type} (m : stmt X) (k : X -> stmt Y) : stmt Y :=
  fun h =>
    match m h with
    | (Ret x, h') => k x h'
    | (Raise e, h') => (Raise e, h')
    | (OutOfFuel, h') => (OutOfFuel, h')
    end.

(** The store with one more object, at the next free reference. *)
Definition extend (h : heap) (o : object) : heap :=
  {| next := S (next h);
     cell := fun l => if Nat.eqb l (next h) then Some o else cell h l |}.

Definition put (o : object) : stmt loc := fun h => (Ret (next h), extend h o).

(** A new array, and a view on [b]. *)
Definition alloc (d : ndarray) : stmt loc := put (own d).
Definition view (b : loc) (d : ndarray) : stmt loc :=
  put {| base := Some b; data := d |}.

Definition read1 (l : loc) : stmt vec :=
  fun h =>
    match cell h l with
    | Some {| data := Arr1 v |} => (Ret v, h)
    | _ => (Raise TypeError, h)
    end.

Definition read2 (l : loc) : stmt matrix :=
  fun h =>
    match cell h l with
    | Some {| data := Arr2 M |} => (Ret M, h)
    | _ => (Raise TypeError, h)
    end.

(** The entries of the object at [l] replaced, in place. *)
Definition update (h : heap) (l : loc) (d : ndarray) : heap :=
  {| next := next h;
     cell := fun l' =>
               if Nat.eqb l' l
               then option_map (fun o => {| base := base o; data := d |}) (cell h l)
               else cell h l' |}.

Definition store (l : loc) (d : ndarray) : stmt unit :=
  fun h => (Ret tt, update h l d).

(** The object at [l] exists and shows the entries [d]. *)
Definition holds (h : heap) (l : loc) (d : ndarray) : Prop :=
  l < next h /\ exists o, cell h l = Some o /\ data o = d.

(** No object below [n] differs between [h] and [h'], and no reference of
    [h] is free in [h']. *)
Definition same_below (n : nat) (h h' : heap) : Prop :=
  next h <= next h' /\ forall l, l < n -> cell h' l = cell h l.

(** The object at [l], and the memory it rests on if it is a view, were
    allocated at or after [n]. *)
Definition fresh_since (n : nat) (h : heap) (l : loc) : Prop :=
  n <= l /\ forall o b, cell h l = Some o -> base o = Some b -> n <= b.

End Store.

Declare Scope stmt_scope.
Delimit Scope stmt_scope with stmt.
Notation "x <~ m ;; k" := (seq_stmt m (fun x => k))
  (at level 61, m at next level, right associativity) : stmt_scope.
Notation "' p <~ m ;; k" := (seq_stmt m (fun p => k))
  (at level 61, p pattern, m at next level, right associativity) : stmt_scope.

Section Kernels_on_store.
Context {F : Scalar} {L : LinAlg F}.
Local Open Scope stmt_scope.

(** *** NSI *)

Record NSI_names : Type := {
  at_Q : loc;
  the_residual : num;
  at_lprev : loc;
  the_ctr : Z;
  at_lam : option loc
}.

Definition NSI_init_on_store (A : loc) : stmt NSI_names :=
  a <~ read2 A ;;
  let m := shape0 a in
  Q <~ alloc (Arr2 (identity m)) ;;
  lprev <~ alloc (Arr1 (ones m)) ;;
  ret {| at_Q := Q; the_residual := of_Z 10; at_lprev := lprev;
         the_ctr := 0; at_lam := None |}.

Definition NSI_body_on_store (A : loc) (st : NSI_names) : stmt NSI_names :=
  (* Q,R = qr(A@Q) *)
  a <~ read2 A ;;
  q <~ read2 (at_Q st) ;;
  AQ <~ alloc (Arr2 (matmul a q)) ;;
  aq <~ read2 AQ ;;
  ' (q', r') <~ lift (qr aq) ;;
  Q <~ alloc (Arr2 q') ;;
  _ <~ alloc (Arr2 r') ;;
  (* lam = np.diagonal(Q.T @ A @ Q) *)
  q' <~ read2 Q ;;
  QT <~ view Q (Arr2 (transpose q')) ;;
  qt <~ read2 QT ;;
  a <~ read2 A ;;
  QTA <~ alloc (Arr2 (matmul qt a)) ;;
  qta <~ read2 QTA ;;
  q' <~ read2 Q ;;
  QTAQ <~ alloc (Arr2 (matmul qta q')) ;;
  qtaq <~ read2 QTAQ ;;
  lam <~ view QTAQ (Arr1 (diagonal qtaq)) ;;
  (* residual = norm(lprev - np.sort(lam)) *)
  l <~ read1 lam ;;
  sorted <~ alloc (Arr1 (sort l)) ;;
  lp <~ read1 (at_lprev st) ;;
  s <~ read1 sorted ;;
  diff <~ alloc (Arr1 (vsub lp s)) ;;
  d <~ read1 diff ;;
  residual <~ lift (norm d) ;;
  (* lprev = np.sort(lam) *)
  l <~ read1 lam ;;
  lprev <~ alloc (Arr1 (sort l)) ;;
  ret {| at_Q := Q; the_residual := residual; at_lprev := lprev;
         the_ctr := the_ctr st + 1; at_lam := Some lam |}.

Fixpoint NSI_loop_on_store (fuel : nat) (A : loc) (tol : num) (maxiter : Z)
    (st : NSI_names) : stmt NSI_names :=
  match fuel with
  | O => lift OutOfFuel
  | S fuel' =>
      nr <~ lift (norm [the_residual st]) ;;
      if gtb nr tol then
        st' <~ NSI_body_on_store A st ;;
        if (the_ctr st' =? maxiter)%Z then ret st'
        else NSI_loop_on_store fuel' A tol maxiter st'
      else ret st
  end.

Definition NSI_on_store (fuel : nat) (A : loc) (tol : num) (maxiter : Z) : stmt loc :=
  st0 <~ NSI_init_on_store A ;;
  st <~ NSI_loop_on_store fuel A tol maxiter st0 ;;
  lift (return_lam (at_lam st)).

(** The names of [NSI] refer, in the store [h], to the values of the
    state [st]; the array [lam] was allocated at or after [n0]. *)
Definition NSI_names_hold (n0 : nat) (h : heap) (nm : NSI_names) (st : NSI_state)
  : Prop :=
  holds h (at_Q nm) (Arr2 (nsi_Q st)) /\
  the_residual nm = nsi_residual st /\
  holds h (at_lprev nm) (Arr1 (nsi_lprev st)) /\
  the_ctr nm = nsi_ctr st /\
  match at_lam nm, nsi_lam st with
  | Some l, Some lam => holds h l (Arr1 lam) /\ fresh_since n0 h l
  | None, None => True
  | _, _ => False
  end.

(** *** IPI *)

Record IPI_names : Type := {
  at_x : loc;
  the_lam_old : num;
  the_err : num;
  the_lam : option num;
  the_passes : nat
}.

(** The statements before the loop; [B] is bound once. *)
Definition IPI_init_on_store (A : loc) : stmt (loc * IPI_names) :=
  a <~ read2 A ;;
  let n := shape0 a in
  x <~ alloc (Arr1 (ones n)) ;;
  (* B = A - s*np.identity(n) *)
  I <~ alloc (Arr2 (identity n)) ;;
  i <~ read2 I ;;
  sI <~ alloc (Arr2 (mscale IPI_s i)) ;;
  a <~ read2 A ;;
  si <~ read2 sI ;;
  B <~ alloc (Arr2 (msub a si)) ;;
  ret (B, {| at_x := x; the_lam_old := of_Z 1; the_err := of_Z 1;
             the_lam := None; the_passes := 0 |}).

Definition IPI_body_on_store (B : loc) (st : IPI_names) : stmt IPI_names :=
  (* u = x/norm(x) *)
  xd <~ read1 (at_x st) ;;
  nx <~ lift (norm xd) ;;
  u <~ alloc (Arr1 (vdiv xd nx)) ;;
  (* x = solve(B,u) *)
  b <~ read2 B ;;
  ud <~ read1 u ;;
  x' <~ lift (solve b ud) ;;
  x <~ alloc (Arr1 x') ;;
  (* mu = u.T @ x *)
  ud <~ read1 u ;;
  uT <~ view u (Arr1 ud) ;;
  ut <~ read1 uT ;;
  xd <~ read1 x ;;
  let mu := dot ut xd in
  let lam := (of_Z 1 [/] mu) [+] IPI_s in
  ret {| at_x := x; the_lam_old := lam;
         the_err := abs (the_lam_old st [-] lam);
         the_lam := Some lam; the_passes := S (the_passes st) |}.

Fixpoint IPI_loop_on_store (fuel : nat) (B : loc) (tol : num) (st : IPI_names)
  : stmt IPI_names :=
  match fuel with
  | O => lift OutOfFuel
  | S fuel' =>
      if gtb (the_err st) tol then
        st' <~ IPI_body_on_store B st ;;
        IPI_loop_on_store fuel' B tol st'
      else ret st
  end.

Definition IPI_on_store (fuel : nat) (A : loc) (tol : num) (maxiter : Z) : stmt num :=
  ' (B, st0) <~ IPI_init_on_store A ;;
  st <~ IPI_loop_on_store fuel B tol st0 ;;
  lift (return_lam (the_lam st)).

Definition IPI_names_hold (h : heap) (nm : IPI_names) (st : IPI_state) : Prop :=
  holds h (at_x nm) (Arr1 (ipi_x st)) /\
  the_lam_old nm = ipi_lam_old st /\
  the_err nm = ipi_err st /\
  the_lam nm = ipi_lam st /\
  the_passes nm = ipi_passes st.

(** *** LanczosTri *)

Record Lanczos_names : Type := {
  at_q : loc;
  at_r : loc;
  the_a1 : num;
  the_b1 : num;
  at_V : loc;
  the_count : Z
}.

Definition Lanczos_init_on_store (A : loc) : stmt Lanczos_names :=
  a <~ read2 A ;;
  let n := shape0 a in
  x <~ alloc (Arr1 (ones n)) ;;
  V <~ alloc (Arr2 (zeros n 1)) ;;
  (* q = x/norm(x) *)
  xd <~ read1 x ;;
  nx <~ lift (norm xd) ;;
  q <~ alloc (Arr1 (vdiv xd nx)) ;;
  (* V[:,0] = q *)
  vd <~ read2 V ;;
  qd <~ read1 q ;;
  _ <~ store V (Arr2 (set_col0 vd qd)) ;;
  (* r = A @ q *)
  a <~ read2 A ;;
  qd <~ read1 q ;;
  r <~ alloc (Arr1 (matvec a qd)) ;;
  (* a1 = q.T @ r *)
  qd <~ read1 q ;;
  qT <~ view q (Arr1 qd) ;;
  qt <~ read1 qT ;;
  rd <~ read1 r ;;
  let a1 := dot qt rd in
  (* r = r - a1*q *)
  qd <~ read1 q ;;
  t <~ alloc (Arr1 (smul a1 qd)) ;;
  rd <~ read1 r ;;
  td <~ read1 t ;;
  r <~ alloc (Arr1 (vsub rd td)) ;;
  (* b1 = norm(r) *)
  rd <~ read1 r ;;
  b1 <~ lift (norm rd) ;;
  ret {| at_q := q; at_r := r; the_a1 := a1; the_b1 := b1; at_V := V;
         the_count := 0 |}.

Definition Lanczos_step_on_store (A : loc) (st : Lanczos_names)
  : stmt Lanczos_names :=
  (* v = q *)
  let v := at_q st in
  (* q = r/b1 *)
  rd <~ read1 (at_r st) ;;
  q <~ alloc (Arr1 (vdiv rd (the_b1 st))) ;;
  (* r = A @ q - b1*v *)
  a <~ read2 A ;;
  qd <~ read1 q ;;
  Aq <~ alloc (Arr1 (matvec a qd)) ;;
  vd <~ read1 v ;;
  bv <~ alloc (Arr1 (smul (the_b1 st) vd)) ;;
  aq <~ read1 Aq ;;
  bvd <~ read1 bv ;;
  r <~ alloc (Arr1 (vsub aq bvd)) ;;
  (* a1 = q.T @ r *)
  qd <~ read1 q ;;
  qT <~ view q (Arr1 qd) ;;
  qt <~ read1 qT ;;
  rd <~ read1 r ;;
  let a1 := dot qt rd in
  (* r = r - a1*q *)
  qd <~ read1 q ;;
  t <~ alloc (Arr1 (smul a1 qd)) ;;
  rd <~ read1 r ;;
  td <~ read1 t ;;
  r <~ alloc (Arr1 (vsub rd td)) ;;
  (* b1 = norm(r) *)
  rd <~ read1 r ;;
  b1 <~ lift (norm rd) ;;
  (* V = np.hstack((V,np.reshape(q,(n,1)))) *)
  qd <~ read1 q ;;
  Rq <~ view q (Arr2 (reshape_col qd)) ;;
  Vd <~ read2 (at_V st) ;;
  rq <~ read2 Rq ;;
  V <~ alloc (Arr2 (hstack Vd rq)) ;;
  (* V = qr(V)[0] *)
  Vd <~ read2 V ;;
  ' (Q, R) <~ lift (qr Vd) ;;
  Ql <~ alloc (Arr2 Q) ;;
  _ <~ alloc (Arr2 R) ;;
  ret {| at_q := q; at_r := r; the_a1 := a1; the_b1 := b1; at_V := Ql;
         the_count := the_count st + 1 |}.

Fixpoint Lanczos_loop_on_store (steps : nat) (A : loc) (st : Lanczos_names)
  : stmt (loc * list string) :=
  match steps with
  | O =>
      (* T = V.T @ A @ V *)
      Vd <~ read2 (at_V st) ;;
      VT <~ view (at_V st) (Arr2 (transpose Vd)) ;;
      vt <~ read2 VT ;;
      a <~ read2 A ;;
      VTA <~ alloc (Arr2 (matmul vt a)) ;;
      vta <~ read2 VTA ;;
      Vd <~ read2 (at_V st) ;;
      T <~ alloc (Arr2 (matmul vta Vd)) ;;
      ret (T, [])
  | S steps' =>
      st' <~ Lanczos_step_on_store A st ;;
      if eqb (the_b1 st') zero then ret (at_V st', [breakdown_warning])
      else Lanczos_loop_on_store steps' A st'
  end.

Definition LanczosTri_on_store (A : loc) : stmt (loc * list string) :=
  a <~ read2 A ;;
  st <~ Lanczos_init_on_store A ;;
  Lanczos_loop_on_store (shape0 a - 1) A st.

Definition Lanczos_names_hold (n0 : nat) (h : heap) (nm : Lanczos_names)
    (st : Lanczos_state) : Prop :=
  holds h (at_q nm) (Arr1 (lz_q st)) /\
  holds h (at_r nm) (Arr1 (lz_r st)) /\
  the_a1 nm = lz_a1 st /\
  the_b1 nm = lz_b1 st /\
  holds h (at_V nm) (Arr2 (lz_V st)) /\
  fresh_since n0 h (at_V nm) /\
  the_count nm = lz_ctr st.

(** What a call on the store [h] leaves, against the value [pure] of the
    embedded kernel: the objects of [h] are as they were, and a returned
    array is an object allocated during the call that shows that value. *)
Definition returns_fresh {X Y : Type} (h : heap) (run : outcome X * heap)
    (pure : outcome Y) (shows : heap -> X -> Y -> Prop) : Prop :=
  same_below (next h) h (snd run) /\
  match pure with
  | Ret y => exists x, fst run = Ret x /\ shows (snd run) x y
  | Raise e => fst run = Raise e
  | OutOfFuel => fst run = OutOfFuel
  end.

End Kernels_on_store.

(** A store of the caller: one object, the matrix [diag(2,1)]. *)
Definition caller_store : @heap Float64.scalar :=
  extend {| next := 0; cell := fun _ => None |} (own (Arr2 Float64.diag21)).

(** ** Further definitions

    The library routines come back: they return or raise. *)

Section Library_laws.
Context {F : Scalar} {L : LinAlg F}.

Definition library_comes_back : Prop :=
  (forall v, norm v <> OutOfFuel) /\
  (forall M, qr M <> OutOfFuel) /\
  (forall B u, solve B u <> OutOfFuel).

(** The tests before the passes [1], ..., [k] of [NSI] were true: these
    passes were entered. *)
Definition NSI_passes_entered (A : matrix) (tol : num) (k : nat) : Prop :=
  forall j st, j < k -> NSI_iter A j = Ret st -> NSI_guard tol st = Ret true.

(** The first [err = 1] exceeds the tolerance, and the only numbers whose
    absolute value does not exceed it are NaNs ([x == x] is false). *)
Definition tolerance_met_by_NaN_only (tol : num) : Prop :=
  gtb (of_Z 1) tol = true /\
  forall x, gtb (abs x) tol = false -> eqb x x = false.

(** No norm of a one-element array meets the tolerance. *)
Definition residual_out_of_reach (tol : num) : Prop :=
  forall x nr, norm [x] = Ret nr -> gtb nr tol = true.

End Library_laws.

(** A square matrix with at least one row whose first column is zero: a
    singular matrix on which elimination meets a zero pivot at once. *)

Section Singular_defs.
Context {F : Scalar}.

Definition zero_first_column (B : matrix) : Prop :=
  B <> [] /\ is_square B = true /\
  forall row, In row B -> eqb (hd zero row) zero = true.

End Singular_defs.

(** The two ways [LanczosTri] returns, for an [n] by [n] argument. *)

Section Lanczos_returns.
Context {F : Scalar} {L : LinAlg F}.



End Lanczos_returns.

(** ** SymmMat: the symmetric matrix built from a sample

    [SymmMat] draws a sparse random matrix [X] and returns
    [upper_X + upper_X.T - sparse.diags(X.diagonal())] with
    [upper_X = sparse.triu(X)].  The drawing is left to the caller: the
    sample [X] is the argument.  A sparse matrix is the array of its
    entries. *)

Section SymmMat_defs.
Context {F : Scalar}.

(** [u + v] and [M + N] *)
Definition vadd (u v : vec) : vec := zip_with add u v.
Definition madd (M N : matrix) : matrix := zip_with vadd M N.

(** [sparse.diags(d)] *)
Definition diags (d : vec) : matrix :=
  map (fun i => map (fun j => if Nat.eqb i j then nth i d zero else zero)
                    (seq 0 (length d)))
      (seq 0 (length d)).

(** The statements of [SymmMat] after [X] is drawn. *)
Definition SymmMat_from (X : matrix) : matrix :=
  let upper_X := triu X in
  msub (madd upper_X (transpose upper_X)) (diags (diagonal X)).

(** The entry in row [i], column [j]. *)
Definition entry (M : matrix) (i j : nat) : num := nth j (nth i M []) zero.

(** Adding zero on the right and on the left gives the same. *)
Definition zero_commutes : Prop := forall x : num, x [+] zero = zero [+] x.


(** [M.nnz] of a sparse matrix that an operation returned: the entries
    stored are the ones that compare unequal to zero. *)
Definition nnz (M : matrix) : nat :=
  length (filter (fun x => negb (eqb x zero)) (concat M)).

(** The test of [assert (A - A.T).nnz == 0] in [main]. *)
Definition symmetry_assertion (A : matrix) : bool :=
  Nat.eqb (nnz (msub A (transpose A))) 0.

(** A number minus itself compares equal to zero exactly when the
    number is neither an infinity nor NaN. *)
Definition self_difference_tests_finite : Prop :=
  forall x : num, eqb (x [-] x) zero = is_finite x.

End SymmMat_defs.

Module Float64_inputs.
Import Float64.

Definition sample2 : matrix := [[1; 2]; [3; 4]]%float.


(** The shift [-3000] is an eigenvalue: [A - (-3000) I] is [[49, 49], [49, 49]]. *)
Definition shift_eigen2 : matrix := [[-2951; 49]; [49; -2951]]%float.

(** A symmetric matrix on which the Lanczos recurrence from the all-ones
    vector is exact in binary64, with [b = 4, 4, 4] and then [0]. *)
Definition exact4 : matrix :=
  [[6; 0; 0; -2]; [0; -6; 2; 0]; [0; 2; 2; 0]; [-2; 0; 0; -2]]%float.

(** Finite entries whose row sums overflow. *)
Definition overflow2 : matrix :=
  [[0x1.8p1023; 0x1.8p1023]; [0x1.8p1023; 0x1.8p1023]]%float.

(** Eigenvalues at equal distance on both sides of the shift. *)
Definition astride4 : matrix :=
  [[-2999; 0; 0; 0]; [0; -2999; 0; 0]; [0; 0; -3001; 0]; [0; 0; 0; -3001]]%float.

(** The coefficient [b1] after [k] passes of [LanczosTri]. *)
Definition Lanczos_b (A : matrix) (k : nat) : option float :=
  match Lanczos_iter A k with
  | Ret st => Some (lz_b1 st)
  | _ => None
  end.

End Float64_inputs.
(** * Properties *)

Lemma bind_Ret_inv {X Y : Type} (m : outcome X) (k : X -> outcome Y) (y : Y) :
  bind m k = Ret y -> exists x, m = Ret x /\ k x = Ret y.
Proof. destruct m as [x| |]; simpl; intros H; try discriminate; eauto. Qed.

(** ** NSI: the iteration cap, the exits and the returned vector *)

Section NSI_facts.
Context {F : Scalar} {L : LinAlg F}.
Variables (A : matrix) (tol : num) (maxiter : Z).

Lemma NSI_body_inv (st st' : NSI_state) :
  NSI_body A st = Ret st' ->
  exists Q R lam,
    qr (matmul A (nsi_Q st)) = Ret (Q, R) /\
    lam = diagonal (matmul (matmul (transpose Q) A) Q) /\
    norm (vsub (nsi_lprev st) (sort lam)) = Ret (nsi_residual st') /\
    nsi_Q st' = Q /\
    nsi_lprev st' = sort lam /\
    nsi_ctr st' = (nsi_ctr st + 1)%Z /\
    nsi_lam st' = Some lam.
Proof.
  unfold NSI_body. intros H.
  apply bind_Ret_inv in H. destruct H as [[Q R] [Hqr H]].
  apply bind_Ret_inv in H. destruct H as [res [Hres H]].
  injection H as <-. simpl. exists Q, R. eexists. repeat split; eauto.
Qed.

Lemma NSI_iter_ctr (k : nat) (st : NSI_state) :
  NSI_iter A k = Ret st -> nsi_ctr st = Z.of_nat k.
Proof.
  revert st. induction k as [|k IH]; intros st H.
  - injection H as <-. reflexivity.
  - simpl in H. apply bind_Ret_inv in H. destruct H as [st0 [H0 Hb]].
    apply NSI_body_inv in Hb.
    destruct Hb as (Q & R & lam & _ & _ & _ & _ & _ & Hc & _).
    rewrite Hc, (IH _ H0). lia.
Qed.

Lemma NSI_iter_lprev (k : nat) (st : NSI_state) :
  NSI_iter A k = Ret st -> nsi_lprev st = lprev_of A st.
Proof.
  destruct k as [|k]; intros H.
  - injection H as <-. reflexivity.
  - simpl in H. apply bind_Ret_inv in H. destruct H as [st0 [_ Hb]].
    apply NSI_body_inv in Hb.
    destruct Hb as (Q & R & lam & _ & _ & _ & _ & Hl & _ & Hlam).
    unfold lprev_of. rewrite Hlam. exact Hl.
Qed.

Lemma NSI_iter_lam (k : nat) (st : NSI_state) :
  NSI_iter A (S k) = Ret st ->
  nsi_lam st =
    Some (diagonal (matmul (matmul (transpose (nsi_Q st)) A) (nsi_Q st))).
Proof.
  simpl. intros H. apply bind_Ret_inv in H. destruct H as [st0 [_ Hb]].
  apply NSI_body_inv in Hb.
  destruct Hb as (Q & R & lam & _ & Hlam & _ & HQ & _ & _ & Hl).
  rewrite Hl, HQ, Hlam. reflexivity.
Qed.

(** The loop, started after [k] passes with the cap still ahead, stops
    after at most [maxiter] passes in all. *)
Lemma NSI_loop_capped (fuel k : nat) (st : NSI_state) :
  NSI_iter A k = Ret st ->
  (Z.of_nat k < maxiter)%Z ->
  (maxiter <= Z.of_nat k + Z.of_nat fuel)%Z ->
  NSI_calls_succeed A tol (Z.to_nat maxiter) ->
  exists k' st' how,
    NSI_loop fuel A tol maxiter st = Ret (st', how) /\
    NSI_iter A k' = Ret st' /\
    k <= k' /\ (Z.of_nat k' <= maxiter)%Z /\
    (NSI_guard tol st = Ret true -> k < k') /\
    (how = ByCap <-> Z.of_nat k' = maxiter) /\
    (how = ByTolerance -> NSI_guard tol st' = Ret false).
Proof.
  revert k st. induction fuel as [|fuel IH]; intros k st Hk Hlt Hfuel Hok.
  - lia.
  - destruct (Hok k st ltac:(lia) Hk) as [[go Hgo] [st1 Hb]].
    simpl. rewrite Hgo. simpl. destruct go.
    + rewrite Hb. simpl.
      assert (Hk1 : NSI_iter A (S k) = Ret st1) by (simpl; rewrite Hk; exact Hb).
      pose proof (NSI_iter_ctr _ Hk1) as Hc. rewrite Hc.
      destruct (Z.eqb_spec (Z.of_nat (S k)) maxiter) as [He|Hne].
      * exists (S k), st1, ByCap. repeat split; auto; try lia; discriminate.
      * destruct (IH (S k) st1 Hk1 ltac:(lia) ltac:(lia) Hok)
          as (k' & st' & how & Hrun & Hit & Hle & Hcap & _ & Hhow & Htol).
        exists k', st', how. repeat split; auto; try lia; apply Hhow; auto.
    + exists k, st, ByTolerance. repeat split; auto; try lia; discriminate.
Qed.

(** With a cap that the counter has already passed, [break] is never
    taken. *)
Lemma NSI_loop_uncapped (fuel : nat) (st st' : NSI_state) (how : loop_exit) :
  (maxiter <= nsi_ctr st)%Z ->
  NSI_loop fuel A tol maxiter st = Ret (st', how) ->
  how = ByTolerance /\ NSI_guard tol st' = Ret false.
Proof.
  revert st. induction fuel as [|fuel IH]; intros st Hc H; simpl in H.
  - discriminate.
  - apply bind_Ret_inv in H. destruct H as [go [Hgo H]]. destruct go.
    + apply bind_Ret_inv in H. destruct H as [st1 [Hb H]].
      pose proof (NSI_body_inv _ Hb)
        as (Q & R & lam & _ & _ & _ & _ & _ & Hc1 & _).
      destruct (Z.eqb_spec (nsi_ctr st1) maxiter) as [He|Hne]; [lia|].
      apply (IH st1); [lia | exact H].
    + injection H as <- <-.
      split; [reflexivity|].
      unfold NSI_guard in *. destruct (norm [nsi_residual st]); simpl in *;
        try discriminate. injection Hgo as ->. reflexivity.
Qed.

(** Every stop of the loop is at a state some number of passes produced. *)
Lemma NSI_loop_reaches (fuel k : nat) (st st' : NSI_state) (how : loop_exit) :
  NSI_iter A k = Ret st ->
  NSI_loop fuel A tol maxiter st = Ret (st', how) ->
  exists k', k <= k' /\ NSI_iter A k' = Ret st'.
Proof.
  revert k st. induction fuel as [|fuel IH]; intros k st Hk H; simpl in H.
  - discriminate.
  - apply bind_Ret_inv in H. destruct H as [go [Hgo H]]. destruct go.
    + apply bind_Ret_inv in H. destruct H as [st1 [Hb H]].
      assert (Hk1 : NSI_iter A (S k) = Ret st1) by (simpl; rewrite Hk; exact Hb).
      destruct (nsi_ctr st1 =? maxiter)%Z.
      * injection H as <- <-. exists (S k). split; [lia | exact Hk1].
      * destruct (IH _ _ Hk1 H) as [k' [Hle Hk']]. exists k'. split; [lia|auto].
    + injection H as <- <-. exists k. split; [lia | exact Hk].
Qed.

End NSI_facts.

(** ** Shapes of arrays *)

Section Shapes.
Context {F : Scalar}.

Lemma zip_with_length {X Y Z : Type} (f : X -> Y -> Z) (xs : list X) (ys : list Y) :
  length (zip_with f xs ys) = Nat.min (length xs) (length ys).
Proof.
  revert ys. induction xs as [|x xs IH]; intros [|y ys]; simpl; auto.
Qed.

Lemma zip_with_Forall {X Y Z : Type} (f : X -> Y -> Z) (P : Z -> Prop)
    (xs : list X) (ys : list Y) :
  (forall x y, In x xs -> In y ys -> P (f x y)) ->
  Forall P (zip_with f xs ys).
Proof.
  revert ys. induction xs as [|x xs IH]; intros [|y ys] H; simpl; constructor.
  - apply H; simpl; auto.
  - apply IH. intros x' y' Hx Hy. apply H; simpl; auto.
Qed.

Lemma vdiv_length (v : vec) (c : num) : length (vdiv v c) = length v.
Proof. apply length_map. Qed.

Lemma smul_length (c : num) (v : vec) : length (smul c v) = length v.
Proof. apply length_map. Qed.

Lemma vsub_length (u v : vec) :
  length (vsub u v) = Nat.min (length u) (length v).
Proof. apply zip_with_length. Qed.

Lemma matvec_length (A : matrix) (v : vec) : length (matvec A v) = length A.
Proof. apply length_map. Qed.

Lemma ones_length (n : nat) : length (ones n) = n.
Proof. apply repeat_length. Qed.

Lemma has_shape_ncols (n k : nat) (M : matrix) :
  has_shape n k M -> 1 <= n -> ncols M = k.
Proof.
  intros [Hn Hrows] Hpos. destruct M as [|row M]; simpl in *; [lia|].
  inversion Hrows; auto.
Qed.

Lemma transpose_length (n k : nat) (M : matrix) :
  has_shape n k M -> 1 <= n -> length (transpose M) = k.
Proof.
  intros H Hpos. unfold transpose. rewrite length_map, length_seq.
  exact (has_shape_ncols H Hpos).
Qed.

Lemma set_col0_zeros (n : nat) (q : vec) :
  length q = n -> set_col0 (zeros n 1) q = reshape_col q.
Proof.
  revert q. induction n as [|n IH]; intros [|x q] H; simpl in *;
    try discriminate; auto.
  unfold set_col0, reshape_col in *. simpl. f_equal. apply IH. lia.
Qed.

Lemma reshape_col_shape (q : vec) : has_shape (length q) 1 (reshape_col q).
Proof.
  split; [apply length_map|].
  unfold reshape_col. apply Forall_forall. intros row Hin.
  apply in_map_iff in Hin. destruct Hin as [x [<- _]]. reflexivity.
Qed.

Lemma hstack_shape (n k : nat) (V : matrix) (q : vec) :
  has_shape n k V -> length q = n ->
  has_shape n (S k) (hstack V (reshape_col q)).
Proof.
  intros [Hn Hrows] Hq. split.
  - unfold hstack. rewrite zip_with_length.
    destruct (reshape_col_shape q) as [Hl _]. rewrite Hl. lia.
  - unfold hstack. apply zip_with_Forall. intros row c Hrow Hc.
    rewrite length_app.
    rewrite Forall_forall in Hrows. rewrite (Hrows _ Hrow).
    destruct (reshape_col_shape q) as [_ Hc1].
    rewrite Forall_forall in Hc1. rewrite (Hc1 _ Hc). lia.
Qed.

Lemma matmul_shape (A B : matrix) :
  has_shape (length A) (length (transpose B)) (matmul A B).
Proof.
  split; [apply length_map|].
  unfold matmul. apply Forall_forall. intros row Hin.
  apply in_map_iff in Hin. destruct Hin as [r [<- _]]. apply length_map.
Qed.

(** [V.T @ A @ V] is [k] by [k] when [V] has [k] columns. *)
Lemma Lanczos_T_shape (n k : nat) (A V : matrix) :
  has_shape n k V -> 1 <= n -> has_shape k k (Lanczos_T A V).
Proof.
  intros HV Hpos. unfold Lanczos_T.
  pose proof (matmul_shape (matmul (transpose V) A) V) as H.
  rewrite (transpose_length HV Hpos) in H.
  destruct (matmul_shape (transpose V) A) as [Hl _].
  rewrite Hl, (transpose_length HV Hpos) in H. exact H.
Qed.

End Shapes.

(** ** Entries of transposes and products *)

Section Entry_facts.
Context {F : Scalar}.

Lemma nth_zip_with {X Y Z : Type} (f : X -> Y -> Z) (xs : list X) (ys : list Y)
    (i : nat) (dx : X) (dy : Y) (dz : Z) :
  i < length xs -> i < length ys ->
  nth i (zip_with f xs ys) dz = f (nth i xs dx) (nth i ys dy).
Proof.
  revert ys i. induction xs as [|x xs IH]; intros [|y ys] [|i] Hx Hy;
    simpl in *; try lia; auto. apply IH; lia.
Qed.

Lemma nth_map_seq {X : Type} (g : nat -> X) (n i : nat) (d : X) :
  i < n -> nth i (map g (seq 0 n)) d = g i.
Proof.
  intros Hi. rewrite (nth_indep _ d (g 0)) by (rewrite length_map, length_seq; lia).
  rewrite map_nth, seq_nth by lia. reflexivity.
Qed.

Lemma row_length (n m : nat) (M : matrix) (i : nat) :
  has_shape n m M -> i < n -> length (nth i M []) = m.
Proof.
  intros [Hn Hrows] Hi. rewrite Forall_forall in Hrows. apply Hrows.
  apply nth_In. lia.
Qed.

Lemma matrix_ext (n m : nat) (M N : matrix) :
  has_shape n m M -> has_shape n m N ->
  (forall i j, i < n -> j < m -> entry M i j = entry N i j) ->
  M = N.
Proof.
  intros HM HN H. apply (nth_ext _ _ [] []).
  - destruct HM as [-> _], HN as [-> _]. reflexivity.
  - intros i Hi. assert (Hi' : i < n) by (destruct HM as [<- _]; exact Hi).
    apply (nth_ext _ _ zero zero).
    + rewrite (row_length HM Hi'), (row_length HN Hi'). reflexivity.
    + intros j Hj. rewrite (row_length HM Hi') in Hj. apply (H i j Hi' Hj).
Qed.

Lemma entry_transpose (n m : nat) (M : matrix) (i j : nat) :
  has_shape n m M -> i < m -> j < n ->
  entry (transpose M) i j = entry M j i.
Proof.
  intros HM Hi Hj. unfold entry, transpose.
  rewrite (has_shape_ncols HM) by lia.
  rewrite nth_map_seq by exact Hi. unfold col.
  destruct HM as [Hn _].
  rewrite (nth_indep _ zero (nth i [] zero)) by (rewrite length_map; lia).
  rewrite (map_nth (fun row => nth i row zero)). reflexivity.
Qed.

Lemma transpose_shape (n m : nat) (M : matrix) :
  has_shape n m M -> 1 <= n -> has_shape m n (transpose M).
Proof.
  intros HM Hpos. split; [apply (transpose_length HM Hpos)|].
  apply Forall_forall. intros row Hin. unfold transpose in Hin.
  apply in_map_iff in Hin. destruct Hin as [j [<- _]].
  unfold col. rewrite length_map. apply HM.
Qed.

Lemma entry_matmul (n p m : nat) (M N : matrix) (i j : nat) :
  has_shape n p M -> has_shape p m N -> 1 <= p -> i < n -> j < m ->
  entry (matmul M N) i j = dot (nth i M []) (col j N).
Proof.
  intros HM HN Hp Hi Hj. unfold entry, matmul.
  destruct HM as [Hn _]. subst n.
  rewrite (nth_indep _ [] (map (fun c => dot [] c) (transpose N)))
    by (rewrite length_map; exact Hi).
  rewrite (map_nth (fun row => map (fun c => dot row c) (transpose N))).
  unfold transpose. rewrite (has_shape_ncols HN Hp), map_map.
  rewrite nth_map_seq by exact Hj. reflexivity.
Qed.

Lemma nth_col (n m : nat) (M : matrix) (j k : nat) :
  has_shape n m M -> k < n -> nth k (col j M) zero = entry M k j.
Proof.
  intros [Hn _] Hk. subst n. unfold col, entry.
  rewrite (nth_indep _ zero (nth j [] zero)) by (rewrite length_map; exact Hk).
  rewrite (map_nth (fun row => nth j row zero)). reflexivity.
Qed.

Lemma col_length (M : matrix) (j : nat) : length (col j M) = length M.
Proof. apply length_map. Qed.

Lemma zip_with_seq {X Y Z : Type} (f : X -> Y -> Z) (xs : list X) (ys : list Y)
    (dx : X) (dy : Y) (p : nat) :
  length xs = p -> length ys = p ->
  zip_with f xs ys = map (fun k => f (nth k xs dx) (nth k ys dy)) (seq 0 p).
Proof.
  revert ys p. induction xs as [|x xs IH]; intros [|y ys] [|p] Hx Hy;
    simpl in *; try discriminate; auto.
  f_equal. rewrite <- seq_shift, map_map. apply IH; lia.
Qed.

Lemma entry_matmul_sum (n p m : nat) (M N : matrix) (i j : nat) :
  has_shape n p M -> has_shape p m N -> 1 <= p -> i < n -> j < m ->
  entry (matmul M N) i j =
    vsum (map (fun k => entry M i k [*] entry N k j) (seq 0 p)).
Proof.
  intros HM HN Hp Hi Hj. rewrite (entry_matmul HM HN Hp Hi Hj). unfold dot.
  rewrite (zip_with_seq mul (nth i M []) (col j N) zero zero (p := p)).
  - f_equal. apply map_ext_in. intros k Hk. apply in_seq in Hk.
    rewrite (nth_col j HN) by lia. reflexivity.
  - apply (row_length HM Hi).
  - rewrite col_length. apply HN.
Qed.

End Entry_facts.

(** ** The reference QR keeps shapes *)

Section Reference_shapes.
Context {F : Scalar}.

Lemma reflector_length (i : nat) (M : matrix) :
  length (snd (reflector i M)) = length M.
Proof.
  unfold reflector.
  pose proof (length_skipn i (col i M)) as Hs.
  unfold col in Hs at 2. rewrite length_map in Hs.
  destruct (skipn i (col i M)) as [|alpha tail]; simpl in *.
  - apply repeat_length.
  - destruct (eqb _ zero); simpl;
      rewrite length_app, repeat_length; simpl; rewrite length_map; lia.
Qed.

Lemma reflect_shape (n k : nat) (h : num * vec) (M : matrix) :
  has_shape n k M -> length (snd h) = n -> has_shape n k (reflect h M).
Proof.
  intros HM Hw. destruct h as [tau w]. simpl in Hw. unfold reflect.
  destruct (eqb tau zero); [exact HM|].
  destruct HM as [Hn Hrows]. split.
  - rewrite zip_with_length. lia.
  - apply zip_with_Forall. intros wi row _ Hrow.
    rewrite zip_with_length, length_map.
    unfold transpose. rewrite length_map, length_seq.
    rewrite Forall_forall in Hrows.
    assert (Hc : ncols M = k).
    { destruct M as [|r0 M']; [destruct Hrow|]. simpl. apply Hrows. simpl. auto. }
    rewrite Hc, (Hrows _ Hrow). lia.
Qed.

Lemma qr_reduce_lengths (steps i n k : nat) (M : matrix) :
  has_shape n k M ->
  Forall (fun h => length (snd h) = n) (fst (qr_reduce i steps M)).
Proof.
  revert i M. induction steps as [|steps IH]; intros i M HM; simpl.
  - constructor.
  - pose proof (reflector_length i M) as Hw.
    destruct HM as [Hn Hrows]. rewrite Hn in Hw.
    specialize (IH (S i) (reflect (reflector i M) M)
                   (reflect_shape (reflector i M) (conj Hn Hrows) Hw)).
    destruct (qr_reduce (S i) steps (reflect (reflector i M) M)) as [hs R].
    simpl in *. constructor; assumption.
Qed.

Lemma identity_columns_shape (n k : nat) :
  k <= n -> has_shape n k (map (firstn k) (identity n)).
Proof.
  intros Hk. split.
  - unfold identity. rewrite !length_map, length_seq. reflexivity.
  - apply Forall_forall. intros row Hin.
    apply in_map_iff in Hin. destruct Hin as [r [<- Hr]].
    unfold identity in Hr. apply in_map_iff in Hr. destruct Hr as [i [<- _]].
    rewrite length_firstn, length_map, length_seq. lia.
Qed.

Lemma reflect_all_shape (n k : nat) (hs : list (num * vec)) (E : matrix) :
  has_shape n k E ->
  Forall (fun h => length (snd h) = n) hs ->
  has_shape n k (fold_right reflect E hs).
Proof.
  intros HE Hhs. induction Hhs as [|h hs Hh _ IH]; simpl.
  - exact HE.
  - apply reflect_shape; assumption.
Qed.

Lemma ref_qr_keeps_shape : @qr_keeps_shape F reference.
Proof.
  intros M Q R n k HM Hk Hqr. simpl in Hqr. unfold ref_qr in Hqr.
  pose proof (@qr_reduce_lengths (Nat.min (length M) (ncols M)) 0 n k M HM) as Hhs.
  destruct (qr_reduce 0 (Nat.min (length M) (ncols M)) M) as [hs R'].
  injection Hqr as <- _. simpl in Hhs.
  assert (Hmin : Nat.min (length M) (ncols M) = k \/ n = 0).
  { destruct n as [|n]; [right; reflexivity | left].
    rewrite (has_shape_ncols HM ltac:(lia)). destruct HM as [-> _]. lia. }
  destruct HM as [Hn _].
  destruct Hmin as [Hm | Hz].
  - rewrite Hm, Hn.
    apply reflect_all_shape; [apply identity_columns_shape; exact Hk | exact Hhs].
  - rewrite Hz in Hn, Hk. assert (k = 0) by lia. subst k n.
    destruct M as [|row M]; [|discriminate Hn]. simpl.
    apply reflect_all_shape; [|exact Hhs].
    split; [reflexivity | constructor].
Qed.

End Reference_shapes.

(** ** The reference routines come back *)

Section Reference_comes_back.
Context {F : Scalar}.

Lemma eliminate_comes_back (n : nat) (rows : matrix) :
  eliminate n rows <> OutOfFuel.
Proof.
  revert rows. induction n as [|n IH]; intros rows; simpl; [discriminate|].
  destruct (swap_first (pivot_index rows) rows) as [|p rest]; [discriminate|].
  destruct (eqb (hd zero p) zero); [discriminate|].
  match goal with |- context [eliminate n ?r] =>
    pose proof (IH r) as H; destruct (eliminate n r); simpl;
      [discriminate | discriminate | contradiction]
  end.
Qed.

Lemma reference_comes_back : @library_comes_back F reference.
Proof.
  split; [|split].
  - intros v. simpl. unfold ref_norm. destruct (forallb is_finite v); discriminate.
  - intros M. simpl. unfold ref_qr.
    destruct (qr_reduce 0 (Nat.min (length M) (ncols M)) M). discriminate.
  - intros B u. simpl. unfold ref_solve.
    destruct (negb (is_square B)); [discriminate|].
    destruct (negb (Nat.eqb (length u) (length B))); [discriminate|].
    match goal with |- context [eliminate ?n ?r] =>
      pose proof (eliminate_comes_back n r) as H; destruct (eliminate n r); simpl;
        [discriminate | discriminate | contradiction]
    end.
Qed.

End Reference_comes_back.


Section NSI_claims.
Context {F : Scalar} {L : LinAlg F}.

Lemma NSI_body_comes_back (A : matrix) (st : NSI_state) :
  library_comes_back -> NSI_body A st <> OutOfFuel.
Proof.
  intros (Hnorm & Hqr & _) Hb. unfold NSI_body in Hb.
  pose proof (Hqr (matmul A (nsi_Q st))) as Hq.
  destruct (qr (matmul A (nsi_Q st))) as [[Q R]| e |]; try discriminate;
    [|contradiction].
  cbn [bind] in Hb.
  match type of Hb with context [norm ?v] =>
    pose proof (Hnorm v) as Hn2; destruct (norm v); try discriminate;
    contradiction
  end.
Qed.

Lemma NSI_guard_comes_back (tol : num) (st : NSI_state) :
  library_comes_back -> NSI_guard tol st <> OutOfFuel.
Proof.
  intros (Hnorm & _) Hg. unfold NSI_guard in Hg.
  pose proof (Hnorm [nsi_residual st]) as Hn.
  destruct (norm [nsi_residual st]); try discriminate. contradiction.
Qed.

Lemma NSI_passes_entered_S (A : matrix) (tol : num) (k : nat) (st : NSI_state) :
  NSI_passes_entered A tol k ->
  NSI_iter A k = Ret st -> NSI_guard tol st = Ret true ->
  NSI_passes_entered A tol (S k).
Proof.
  intros Hent Hit Hg j stj Hj Hitj.
  destruct (Nat.eq_dec j k) as [->|Hne].
  - rewrite Hit in Hitj. injection Hitj as <-. exact Hg.
  - apply (Hent j stj); [lia | exact Hitj].
Qed.

(** How the loop of [NSI] ends when it is started after [k] passes with
    the cap still ahead: by the cap or the tolerance test after [k']
    passes, or with the exception of the test or the pass that raised. *)
Lemma NSI_loop_outcome (A : matrix) (tol : num) (maxiter : Z) :
  library_comes_back ->
  forall (fuel k : nat) (st : NSI_state),
    NSI_iter A k = Ret st ->
    (Z.of_nat k < maxiter)%Z ->
    (maxiter - Z.of_nat k <= Z.of_nat fuel)%Z ->
    NSI_passes_entered A tol k ->
    (exists (k' : nat) (st' : NSI_state) (how : loop_exit),
       k <= k' /\
       NSI_loop fuel A tol maxiter st = Ret (st', how) /\
       NSI_iter A k' = Ret st' /\
       NSI_passes_entered A tol k' /\
       ((how = ByCap /\ Z.of_nat k' = maxiter /\ k < k') \/
        (how = ByTolerance /\ (Z.of_nat k' < maxiter)%Z /\
         NSI_guard tol st' = Ret false))) \/
    (exists (k' : nat) (st' : NSI_state) (e : exn),
       k <= k' /\ (Z.of_nat k' < maxiter)%Z /\
       NSI_loop fuel A tol maxiter st = Raise e /\
       NSI_iter A k' = Ret st' /\
       NSI_passes_entered A tol k' /\
       (NSI_guard tol st' = Raise e \/
        (NSI_guard tol st' = Ret true /\ NSI_body A st' = Raise e))).
Proof.
  intros Hlib. induction fuel as [|fuel IH]; intros k st Hit Hlt Hfuel Hent; [lia|].
  cbn [NSI_loop].
  pose proof (@NSI_guard_comes_back tol st Hlib) as Hgc.
  destruct (NSI_guard tol st) as [[|]| e |] eqn:Hg; [| | |contradiction].
  - cbn [bind].
    pose proof (@NSI_body_comes_back A st Hlib) as Hbc.
    destruct (NSI_body A st) as [st1| e |] eqn:Hb; [| |contradiction].
    + cbn [bind].
      assert (Hit1 : NSI_iter A (S k) = Ret st1).
      { cbn [NSI_iter]. rewrite Hit. exact Hb. }
      pose proof (NSI_iter_ctr _ _ Hit1) as Hc.
      pose proof (NSI_passes_entered_S Hent Hit Hg) as Hent1.
      destruct (Z.eqb_spec (nsi_ctr st1) maxiter) as [He|Hne].
      * left. exists (S k), st1, ByCap.
        split; [lia|]. split; [reflexivity|]. split; [exact Hit1|].
        split; [exact Hent1|]. left. split; [reflexivity|]. split; lia.
      * destruct (IH (S k) st1 Hit1 ltac:(lia) ltac:(lia) Hent1)
          as [(k' & st' & how & Hk & Hrun & Hit' & Hent' & Hhow)
             | (k' & st' & e & Hk & Hk' & Hrun & Hit' & Hent' & Hwhy)].
        -- left. exists k', st', how. split; [lia|].
           split; [exact Hrun|]. split; [exact Hit'|]. split; [exact Hent'|].
           destruct Hhow as [(H1 & H2 & H3) | H]; [left | right; exact H].
           split; [exact H1|]. split; [exact H2 | lia].
        -- right. exists k', st', e. split; [lia|]. split; [exact Hk'|].
           split; [exact Hrun|]. split; [exact Hit'|]. split; [exact Hent'|].
           exact Hwhy.
    + right. exists k, st, e. split; [lia|]. split; [exact Hlt|].
      split; [reflexivity|]. split; [exact Hit|]. split; [exact Hent|].
      right. split; [exact Hg | exact Hb].
  - left. exists k, st, ByTolerance. split; [lia|]. split; [reflexivity|].
    split; [exact Hit|]. split; [exact Hent|]. right.
    split; [reflexivity|]. split; [exact Hlt | exact Hg].
  - right. exists k, st, e. split; [lia|]. split; [exact Hlt|].
    split; [reflexivity|]. split; [exact Hit|]. split; [exact Hent|].
    left. exact Hg.
Qed.

(** C4: for every matrix [A], every tolerance and [maxiter >= 1], a call
    of [NSI] makes at most [maxiter] passes and ends in one of three
    ways.  It returns the [lam] of its last pass [k], [1 <= k <= maxiter],
    raising nothing: through the cap exactly when [k = maxiter] (so with
    [maxiter = 1] after exactly one pass), through the tolerance test
    otherwise, and the value returned is the same [lam] of pass [k]
    whichever exit was taken.  Or the first test [norm(residual) > tol]
    is false, no pass is made and [return(lam)] raises
    [UnboundLocalError].  Or [norm] or [qr] raises in the test before or
    in the body of a pass that the run reaches, and [NSI] ends with that
    exception. *)
Theorem NSI_stops_at_cap (A : matrix) (tol : num) (maxiter : Z) (fuel : nat) :
  library_comes_back ->
  (1 <= maxiter)%Z ->
  (maxiter <= Z.of_nat fuel)%Z ->
  (exists (k : nat) (st : NSI_state) (how : loop_exit) (lam : vec),
     1 <= k /\ (Z.of_nat k <= maxiter)%Z /\
     NSI_passes_entered A tol k /\
     NSI_iter A k = Ret st /\
     nsi_ctr st = Z.of_nat k /\
     NSI_run fuel A tol maxiter = Ret (st, how) /\
     (how = ByCap <-> Z.of_nat k = maxiter) /\
     (how = ByTolerance -> NSI_guard tol st = Ret false) /\
     nsi_lam st = Some lam /\
     NSI fuel A tol maxiter = Ret lam) \/
  (NSI_guard tol (NSI_init A) = Ret false /\
   NSI_run fuel A tol maxiter = Ret (NSI_init A, ByTolerance) /\
   NSI fuel A tol maxiter = Raise UnboundLocalError) \/
  (exists (k : nat) (st : NSI_state) (e : exn),
     (Z.of_nat k < maxiter)%Z /\
     NSI_passes_entered A tol k /\
     NSI_iter A k = Ret st /\
     (NSI_guard tol st = Raise e \/
      (NSI_guard tol st = Ret true /\ NSI_body A st = Raise e)) /\
     NSI fuel A tol maxiter = Raise e).
Proof.
  intros Hlib Hmax Hfuel.
  assert (Hent0 : NSI_passes_entered A tol 0) by (intros j st Hj; lia).
  destruct (@NSI_loop_outcome A tol maxiter Hlib fuel 0 (NSI_init A) eq_refl
              ltac:(simpl; lia) ltac:(simpl; lia) Hent0)
    as [(k & st & how & _ & Hrun & Hit & Hent & Hhow)
       | (k & st & e & _ & Hk & Hrun & Hit & Hent & Hwhy)].
  - destruct k as [|k].
    + right. left. injection Hit as <-.
      destruct Hhow as [(_ & _ & Hk) | (-> & _ & Hg)]; [lia|].
      split; [exact Hg|]. split; [exact Hrun|].
      unfold NSI, NSI_run. rewrite Hrun. reflexivity.
    + left. pose proof (NSI_iter_lam _ _ Hit) as Hlam.
      destruct (nsi_lam st) as [lam|] eqn:El; [|discriminate Hlam].
      exists (S k), st, how, lam.
      split; [lia|]. split; [destruct Hhow as [(_ & H & _) | (_ & H & _)]; lia|].
      split; [exact Hent|]. split; [exact Hit|].
      split; [exact (NSI_iter_ctr _ _ Hit)|]. split; [exact Hrun|].
      split; [|split; [|split; [exact El|]]].
      * destruct Hhow as [(-> & H & _) | (-> & H & _)]; split; intros H';
          try exact H; try reflexivity; try discriminate; lia.
      * intros ->. destruct Hhow as [(H & _) | (_ & _ & H)];
          [discriminate | exact H].
      * unfold NSI, NSI_run. rewrite Hrun. cbn [bind]. rewrite El. reflexivity.
  - right. right. exists k, st, e. split; [exact Hk|]. split; [exact Hent|].
    split; [exact Hit|]. split; [exact Hwhy|].
    unfold NSI, NSI_run. rewrite Hrun. reflexivity.
Qed.

(** C10: with [maxiter <= 0] the counter, which starts at [0] and is
    incremented before it is compared, never equals [maxiter]: a run that
    stops has stopped through the tolerance test, whose value at the
    final state is false. *)
Theorem NSI_cap_needs_positive_maxiter
    (A : matrix) (tol : num) (maxiter : Z) (fuel : nat)
    (st : NSI_state) (how : loop_exit) :
  (maxiter <= 0)%Z ->
  NSI_run fuel A tol maxiter = Ret (st, how) ->
  how = ByTolerance /\ NSI_guard tol st = Ret false /\ (maxiter < nsi_ctr st + 1)%Z.
Proof.
  intros Hmax Hrun. unfold NSI_run in Hrun.
  destruct (@NSI_loop_uncapped _ _ A tol maxiter fuel (NSI_init A) st how Hmax Hrun)
    as [Hhow Hg].
  destruct (@NSI_loop_reaches _ _ A tol maxiter fuel 0 (NSI_init A) st how eq_refl Hrun)
    as [k [_ Hk]].
  rewrite (NSI_iter_ctr _ _ Hk). repeat split; auto. lia.
Qed.

(** C7: the vector [NSI] returns is [np.diagonal(Q.T @ A @ Q)] for the
    [Q] of the last pass, as extracted and not sorted; in every pass the
    residual is the norm of [lprev - np.sort(lam)], where [lprev] is the
    sorted [lam] of the pass before (the all-ones vector in the first
    pass).  With [maxiter >= 1], the loop entered and the library calls
    raising nothing, [NSI] does return such a vector. *)
Theorem NSI_returns_raw_diagonal
    (A : matrix) (tol : num) (maxiter : Z) (fuel : nat) :
  is_square A = true ->
  (forall lam : vec,
     NSI fuel A tol maxiter = Ret lam ->
     exists (k : nat) (st : NSI_state),
       NSI_iter A (S k) = Ret st /\
       lam = diagonal (matmul (matmul (transpose (nsi_Q st)) A) (nsi_Q st)) /\
       forall j, j <= k ->
         exists (prev cur : NSI_state) (lam_j : vec),
           NSI_iter A j = Ret prev /\
           NSI_iter A (S j) = Ret cur /\
           nsi_lam cur = Some lam_j /\
           norm (vsub (lprev_of A prev) (sort lam_j)) = Ret (nsi_residual cur) /\
           nsi_lprev cur = sort lam_j) /\
  ((1 <= maxiter)%Z ->
   (maxiter <= Z.of_nat fuel)%Z ->
   NSI_guard tol (NSI_init A) = Ret true ->
   NSI_calls_succeed A tol (Z.to_nat maxiter) ->
   exists lam : vec, NSI fuel A tol maxiter = Ret lam).
Proof.
  intros _. split.
  - intros lam H. unfold NSI in H.
    apply bind_Ret_inv in H. destruct H as [[st how] [Hrun Hret]].
    destruct (@NSI_loop_reaches _ _ A tol maxiter fuel 0 (NSI_init A) st how
                eq_refl Hrun) as [k [_ Hk]].
    destruct k as [|k].
    { injection Hk as <-. discriminate Hret. }
    exists k, st. split; [exact Hk|]. split.
    + rewrite (NSI_iter_lam _ _ Hk) in Hret. injection Hret as <-. reflexivity.
    + clear Hret Hrun. revert st Hk. induction k as [|k IH]; intros st Hk j Hj.
      * assert (j = 0) by lia. subst j.
        simpl in Hk. pose proof (NSI_body_inv _ _ Hk)
          as (Q & R & l & _ & _ & Hres & _ & Hl & _ & Hlam).
        exists (NSI_init A), st, l. repeat split; auto.
      * pose proof Hk as Hk'.
        change (NSI_iter A (S (S k)))
          with (bind (NSI_iter A (S k)) (NSI_body A)) in Hk'.
        apply bind_Ret_inv in Hk'. destruct Hk' as [st0 [Hk0 Hb]].
        destruct (Nat.eq_dec j (S k)) as [->|Hne].
        -- pose proof (NSI_body_inv _ _ Hb)
             as (Q & R & l & _ & _ & Hres & _ & Hl & _ & Hlam).
           exists st0, st, l. repeat split; auto.
           rewrite <- (NSI_iter_lprev _ _ Hk0). exact Hres.
        -- apply (IH st0 Hk0 j). lia.
  - intros Hmax Hfuel Hgo Hok.
    destruct (@NSI_loop_capped _ _ A tol maxiter fuel 0 (NSI_init A)
                eq_refl ltac:(simpl; lia) ltac:(simpl; lia) Hok)
      as (k & st & how & Hrun & Hit & _ & _ & Hpos & _).
    specialize (Hpos Hgo). destruct k as [|k]; [lia|].
    eexists. unfold NSI, NSI_run. rewrite Hrun. simpl.
    rewrite (NSI_iter_lam _ _ Hit). reflexivity.
Qed.

End NSI_claims.

(** ** The reference solve on a zero first column *)

Section Reference_solve.
Context {F : Scalar}.

Lemma pivot_index_from_bound (rows : matrix) (i best : nat) (bestv : num) :
  best < i -> pivot_index_from rows i best bestv < i + length rows.
Proof.
  revert i best bestv. induction rows as [|r rows IH]; intros i best bestv Hb.
  - simpl. lia.
  - simpl. destruct (gtb (abs (hd zero r)) bestv).
    + specialize (IH (S i) i (abs (hd zero r)) ltac:(lia)). lia.
    + specialize (IH (S i) best bestv ltac:(lia)). lia.
Qed.

Lemma pivot_index_lt (rows : matrix) :
  rows <> [] -> pivot_index rows < length rows.
Proof.
  destruct rows as [|r rest]; [congruence|]. intros _. unfold pivot_index.
  pose proof (@pivot_index_from_bound rest 1 0 (abs (hd zero r)) ltac:(lia)).
  simpl. lia.
Qed.

Lemma swap_first_head (p : nat) (rows : matrix) :
  p < length rows ->
  exists r rest, swap_first p rows = r :: rest /\ In r rows.
Proof.
  intros Hp. destruct rows as [|r0 rest]; [simpl in Hp; lia|].
  destruct p as [|p]; simpl.
  - exists r0, rest. split; [reflexivity | left; reflexivity].
  - eexists _, _. split; [reflexivity|]. right. apply nth_In. simpl in Hp. lia.
Qed.

Lemma eliminate_zero_column (n : nat) (rows : matrix) :
  rows <> [] ->
  (forall row, In row rows -> eqb (hd zero row) zero = true) ->
  eliminate (S n) rows = Raise LinAlgError.
Proof.
  intros Hne Hz. cbn [eliminate].
  destruct (@swap_first_head _ rows (pivot_index_lt Hne)) as (r & rest & -> & Hin).
  rewrite (Hz r Hin). reflexivity.
Qed.

Lemma ref_solve_zero_column (B : matrix) (u : vec) :
  zero_first_column B -> length u = length B ->
  ref_solve B u = Raise LinAlgError.
Proof.
  intros (Hne & Hsq & Hz) Hlen. unfold ref_solve. rewrite Hsq, Hlen, Nat.eqb_refl.
  cbn [negb]. destruct B as [|row B]; [congruence|].
  destruct u as [|y u]; [discriminate|].
  change (length (row :: B)) with (S (length B)).
  rewrite eliminate_zero_column; [reflexivity | discriminate |].
  intros r Hr.
  assert (Hrows : forall rows ys r',
            In r' (zip_with (fun (row0 : vec) (y0 : num) => row0 ++ [y0]) rows ys) ->
            exists row0 y0, In row0 rows /\ r' = row0 ++ [y0]).
  { induction rows as [|a rows IH]; intros [|b ys] r' H; simpl in H;
      try contradiction.
    destruct H as [<- | H].
    - exists a, b. split; [left; reflexivity | reflexivity].
    - destruct (IH _ _ H) as (row0 & y0 & Hin & E).
      exists row0, y0. split; [right; exact Hin | exact E]. }
  destruct (Hrows _ _ _ Hr) as (row0 & y0 & Hin & ->).
  unfold is_square in Hsq. rewrite forallb_forall in Hsq.
  specialize (Hsq row0 Hin). apply Nat.eqb_eq in Hsq.
  destruct row0 as [|x row0]; [simpl in Hsq; discriminate|].
  simpl. exact (Hz (x :: row0) Hin).
Qed.

Lemma IPI_B_length (A : matrix) :
  length (IPI_B A) = length A.
Proof.
  unfold IPI_B, msub, mscale, identity, shape0.
  rewrite zip_with_length, !length_map, length_seq. apply Nat.min_id.
Qed.

End Reference_solve.

(** ** IPI: the shift, the unused cap and the failing solve *)

Section IPI_claims.
Context {F : Scalar} {L : LinAlg F}.

Lemma IPI_body_inv (A : matrix) (st st' : IPI_state) :
  IPI_body A st = Ret st' ->
  exists nx x,
    norm (ipi_x st) = Ret nx /\
    solve (IPI_B A) (vdiv (ipi_x st) nx) = Ret x /\
    ipi_x st' = x /\
    ipi_lam st' = Some ((of_Z 1 [/] dot (vdiv (ipi_x st) nx) x) [+] IPI_s) /\
    ipi_passes st' = S (ipi_passes st).
Proof.
  unfold IPI_body. intros H.
  apply bind_Ret_inv in H. destruct H as [nx [Hn H]].
  apply bind_Ret_inv in H. destruct H as [x [Hx H]].
  injection H as <-. exists nx, x. simpl. auto.
Qed.

(** The loop is left only when its test [err > tol] fails. *)
Lemma IPI_loop_exit (fuel : nat) (A : matrix) (tol : num) (st st' : IPI_state) :
  IPI_loop fuel A tol st = Ret st' -> gtb (ipi_err st') tol = false.
Proof.
  revert st. induction fuel as [|fuel IH]; intros st H; simpl in H.
  - discriminate.
  - destruct (gtb (ipi_err st) tol) eqn:Hg.
    + apply bind_Ret_inv in H. destruct H as [st1 [_ H]]. exact (IH _ H).
    + injection H as <-. exact Hg.
Qed.

(** A pass in which [solve] raises ends the call with that exception. *)
Lemma IPI_loop_solve_raises (fuel : nat) (A : matrix) (tol : num)
    (st : IPI_state) (nx : num) (e : exn) :
  gtb (ipi_err st) tol = true ->
  norm (ipi_x st) = Ret nx ->
  solve (IPI_B A) (vdiv (ipi_x st) nx) = Raise e ->
  IPI_loop (S fuel) A tol st = Raise e.
Proof.
  intros Hg Hn Hs. simpl. rewrite Hg. unfold IPI_body.
  rewrite Hn. simpl. rewrite Hs. reflexivity.
Qed.

(** The loop, started after [k] passes, stops at the first state at
    which the test fails; the test held at every state passed on the way. *)
Lemma IPI_loop_passes (fuel k : nat) (A : matrix) (tol : num) (st st' : IPI_state) :
  IPI_iter A k = Ret st ->
  IPI_loop fuel A tol st = Ret st' ->
  exists k',
    k <= k' /\ IPI_iter A k' = Ret st' /\
    forall j st_j, k <= j < k' -> IPI_iter A j = Ret st_j ->
      gtb (ipi_err st_j) tol = true.
Proof.
  revert k st. induction fuel as [|fuel IH]; intros k st Hk H; simpl in H.
  - discriminate.
  - destruct (gtb (ipi_err st) tol) eqn:Hg.
    + apply bind_Ret_inv in H. destruct H as [st1 [Hb H]].
      assert (Hk1 : IPI_iter A (S k) = Ret st1) by (simpl; rewrite Hk; exact Hb).
      destruct (IH _ _ Hk1 H) as (k' & Hle & Hk' & Hall).
      exists k'. split; [lia|]. split; [exact Hk'|].
      intros j st_j Hj Hitj. destruct (Nat.eq_dec j k) as [->|Hne].
      * rewrite Hk in Hitj. injection Hitj as <-. exact Hg.
      * apply (Hall j); [lia | exact Hitj].
    + injection H as <-. exists k. split; [lia|]. split; [exact Hk|].
      intros j st_j Hj. lia.
Qed.

Lemma IPI_iter_passes (A : matrix) (k : nat) (st : IPI_state) :
  IPI_iter A k = Ret st -> ipi_passes st = k.
Proof.
  revert st. induction k as [|k IH]; intros st H.
  - injection H as <-. reflexivity.
  - simpl in H. apply bind_Ret_inv in H. destruct H as [st0 [H0 Hb]].
    apply IPI_body_inv in Hb. destruct Hb as (nx & x & _ & _ & _ & _ & Hp).
    rewrite Hp, (IH _ H0). reflexivity.
Qed.

(** C3: [maxiter] does not enter the run of [IPI]: the run and the value
    returned are the same for any two values of it; a run that stops has
    stopped because [err > tol] was false, after exactly as many passes as
    states at which [err > tol] held, whatever [maxiter] is. *)
Theorem IPI_never_tests_maxiter
    (A : matrix) (tol : num) (maxiter maxiter' : Z) (fuel : nat) :
  IPI_run fuel A tol maxiter = IPI_run fuel A tol maxiter' /\
  IPI fuel A tol maxiter = IPI fuel A tol maxiter' /\
  forall st, IPI_run fuel A tol maxiter = Ret st ->
    gtb (ipi_err st) tol = false /\
    IPI_iter A (ipi_passes st) = Ret st /\
    forall j st_j, j < ipi_passes st -> IPI_iter A j = Ret st_j ->
      gtb (ipi_err st_j) tol = true.
Proof.
  split; [reflexivity|]. split; [reflexivity|].
  intros st H. split; [exact (IPI_loop_exit _ _ _ _ H)|].
  destruct (@IPI_loop_passes fuel 0 A tol (IPI_init A) st eq_refl H)
    as (k & _ & Hk & Hall).
  rewrite (IPI_iter_passes _ _ Hk). split; [exact Hk|].
  intros j st_j Hj. apply Hall. lia.
Qed.

Lemma IPI_iter_prefix (A : matrix) (i d : nat) (st : IPI_state) :
  IPI_iter A (i + d) = Ret st -> exists sti, IPI_iter A i = Ret sti.
Proof.
  revert st. induction d as [|d IH]; intros st H.
  - rewrite Nat.add_0_r in H. eauto.
  - replace (i + S d) with (S (i + d)) in H by lia. cbn [IPI_iter] in H.
    apply bind_Ret_inv in H. destruct H as [st0 [H0 _]]. exact (IH _ H0).
Qed.

(** The loop, started after [j] passes, reaches pass [k + 1], in which
    [solve] raises, when the test holds at every state on the way. *)
Lemma IPI_loop_raises_later (A : matrix) (tol : num) (k : nat)
    (stk : IPI_state) (nx : num) (e : exn) :
  IPI_iter A k = Ret stk ->
  (forall i sti, i <= k -> IPI_iter A i = Ret sti ->
     gtb (ipi_err sti) tol = true) ->
  norm (ipi_x stk) = Ret nx ->
  solve (IPI_B A) (vdiv (ipi_x stk) nx) = Raise e ->
  forall (d fuel j : nat) (st : IPI_state),
    j + d = k -> IPI_iter A j = Ret st -> d < fuel ->
    IPI_loop fuel A tol st = Raise e.
Proof.
  intros Hk Hall Hn Hs. induction d as [|d IH]; intros fuel j st Hj Hit Hfuel.
  - rewrite Nat.add_0_r in Hj. subst j. rewrite Hk in Hit. injection Hit as <-.
    destruct fuel as [|fuel]; [lia|].
    apply (IPI_loop_solve_raises fuel A tol stk (Hall k stk (le_n k) Hk) Hn Hs).
  - destruct fuel as [|fuel]; [lia|]. cbn [IPI_loop].
    rewrite (Hall j st ltac:(lia) Hit).
    destruct (@IPI_iter_prefix A (S j) d stk) as [st1 H1].
    { replace (S j + d) with k by lia. exact Hk. }
    pose proof H1 as Hb. cbn [IPI_iter] in Hb. rewrite Hit in Hb. cbn [bind] in Hb.
    rewrite Hb. cbn [bind]. apply (IH fuel (S j) st1); [lia | exact H1 | lia].
Qed.

(** C6: [IPI] catches nothing.  When [solve] raises on the shifted
    matrix in a pass that the loop reaches (the test [err > tol] held at
    every state up to that pass), [IPI] ends with that same exception and
    returns no value.  With the reference routines, [solve] raises
    [LinAlgError] in the first pass whenever the first column of the
    shifted matrix is zero, elimination meeting an exactly zero pivot:
    such a singular matrix ends the call with [LinAlgError]. *)
Theorem IPI_solve_failure_propagates (A : matrix) (tol : num) (maxiter : Z) :
  (forall (fuel k : nat) (st : IPI_state) (nx : num) (e : exn),
     IPI_iter A k = Ret st ->
     (forall i sti, i <= k -> IPI_iter A i = Ret sti ->
        gtb (ipi_err sti) tol = true) ->
     norm (ipi_x st) = Ret nx ->
     solve (IPI_B A) (vdiv (ipi_x st) nx) = Raise e ->
     k < fuel ->
     IPI fuel A tol maxiter = Raise e /\
     forall lam, IPI fuel A tol maxiter <> Ret lam) /\
  (forall (fuel : nat) (nx : num),
     gtb (of_Z 1) tol = true ->
     zero_first_column (IPI_B A) ->
     @norm F reference (ones (shape0 A)) = Ret nx ->
     @IPI F reference (S fuel) A tol maxiter = Raise LinAlgError /\
     forall lam, @IPI F reference (S fuel) A tol maxiter <> Ret lam).
Proof.
  split.
  - intros fuel k st nx e Hk Hall Hn Hs Hfuel.
    assert (H : IPI fuel A tol maxiter = Raise e).
    { unfold IPI, IPI_run.
      rewrite (@IPI_loop_raises_later A tol k st nx e Hk Hall Hn Hs k fuel 0
                 (IPI_init A) eq_refl eq_refl Hfuel).
      reflexivity. }
    split; [exact H|]. intros lam Hl. rewrite H in Hl. discriminate.
  - intros fuel nx Hg Hz Hn.
    assert (H : @IPI F reference (S fuel) A tol maxiter = Raise LinAlgError).
    { unfold IPI, IPI_run. cbn [IPI_loop].
      change (ipi_err (IPI_init A)) with (of_Z 1). rewrite Hg.
      unfold IPI_body. change (ipi_x (IPI_init A)) with (ones (shape0 A)).
      rewrite Hn. cbn [bind].
      change (@solve F reference) with (@ref_solve F).
      rewrite (@ref_solve_zero_column F (IPI_B A) _ Hz); [reflexivity|].
      rewrite vdiv_length, ones_length, IPI_B_length. reflexivity. }
    split; [exact H|]. intros lam Hl. rewrite H in Hl. discriminate.
Qed.

(** C2, as the code has it: [IPI] has no shift argument.  The shift is
    the constant [-3000]: [B] is [A - (-3000)*I] whatever the caller
    passes, every pass solves [B x = u] for the normalized [u] and sets
    [lam = 1/(u.T x) + (-3000)], and a pass of [IPI] is the specified
    pass at that one shift. *)
Theorem IPI_shift_is_fixed (A : matrix) :
  IPI_s = of_Z (-3000) /\
  IPI_B A = shifted_matrix A (of_Z (-3000)) /\
  (forall st st', IPI_body A st = Ret st' ->
     exists nx x,
       norm (ipi_x st) = Ret nx /\
       solve (shifted_matrix A (of_Z (-3000))) (vdiv (ipi_x st) nx) = Ret x /\
       ipi_x st' = x /\
       ipi_lam st' =
         Some ((of_Z 1 [/] dot (vdiv (ipi_x st) nx) x) [+] of_Z (-3000))) /\
  (forall st st' st'',
     IPI_body A st = Ret st' ->
     shifted_pass A (of_Z (-3000)) st = Ret st'' ->
     ipi_x st' = ipi_x st'' /\ ipi_lam st' = ipi_lam st'').
Proof.
  split; [reflexivity|]. split; [reflexivity|]. split.
  - intros st st' H. apply IPI_body_inv in H.
    destruct H as (nx & x & Hn & Hs & Hx & Hl & _). exists nx, x. auto.
  - intros st st' st'' H1 H2. apply IPI_body_inv in H1.
    destruct H1 as (nx & x & Hn & Hs & Hx & Hl & _).
    unfold shifted_pass in H2. rewrite Hn in H2. simpl in H2.
    change (shifted_matrix A (of_Z (-3000))) with (IPI_B A) in H2.
    rewrite Hs in H2. simpl in H2. injection H2 as <-. simpl.
    rewrite Hx, Hl. auto.
Qed.

End IPI_claims.

(** ** LanczosTri: the passes of the loop, breakdown and the result *)

Section Lanczos_claims.
Context {F : Scalar} {L : LinAlg F}.
Variable A : matrix.

Lemma Lanczos_init_inv (st : Lanczos_state) :
  Lanczos_init A = Ret st ->
  exists nx,
    norm (ones (shape0 A)) = Ret nx /\
    lz_q st = vdiv (ones (shape0 A)) nx /\
    lz_r st = vsub (matvec A (lz_q st)) (smul (lz_a1 st) (lz_q st)) /\
    lz_a1 st = dot (lz_q st) (matvec A (lz_q st)) /\
    norm (lz_r st) = Ret (lz_b1 st) /\
    lz_V st = set_col0 (zeros (shape0 A) 1) (lz_q st) /\
    lz_ctr st = 0%Z.
Proof.
  unfold Lanczos_init. intros H.
  apply bind_Ret_inv in H. destruct H as [nx [Hn H]].
  apply bind_Ret_inv in H. destruct H as [b [Hb H]].
  injection H as <-. simpl. exists nx. repeat split; auto.
Qed.

Lemma Lanczos_step_inv (st st' : Lanczos_state) :
  Lanczos_step A st = Ret st' ->
  exists R,
    lz_q st' = vdiv (lz_r st) (lz_b1 st) /\
    lz_r st' =
      vsub (vsub (matvec A (lz_q st')) (smul (lz_b1 st) (lz_q st)))
           (smul (lz_a1 st') (lz_q st')) /\
    lz_a1 st' =
      dot (lz_q st') (vsub (matvec A (lz_q st')) (smul (lz_b1 st) (lz_q st))) /\
    norm (lz_r st') = Ret (lz_b1 st') /\
    qr (hstack (lz_V st) (reshape_col (lz_q st'))) = Ret (lz_V st', R) /\
    lz_ctr st' = (lz_ctr st + 1)%Z.
Proof.
  unfold Lanczos_step. intros H.
  apply bind_Ret_inv in H. destruct H as [b [Hb H]].
  apply bind_Ret_inv in H. destruct H as [[Q R] [Hqr H]].
  injection H as <-. simpl. exists R. repeat split; auto.
Qed.

Lemma Lanczos_iter_S (k : nat) :
  Lanczos_iter A (S k) = bind (Lanczos_iter A k) (Lanczos_step A).
Proof. reflexivity. Qed.

Lemma Lanczos_iter_ctr (k : nat) (st : Lanczos_state) :
  Lanczos_iter A k = Ret st -> lz_ctr st = Z.of_nat k.
Proof.
  revert st. induction k as [|k IH]; intros st H.
  - apply Lanczos_init_inv in H. destruct H as (nx & H). apply H.
  - rewrite Lanczos_iter_S in H. apply bind_Ret_inv in H.
    destruct H as [st0 [H0 Hs]]. apply Lanczos_step_inv in Hs.
    destruct Hs as (R & _ & _ & _ & _ & _ & Hc). rewrite Hc, (IH _ H0). lia.
Qed.

(** The loop from the state after [k] passes, when none of the next
    [steps] passes sees [b1 == 0], runs them all and returns [T]. *)
Lemma Lanczos_loop_clean (steps k : nat) (st : Lanczos_state) :
  Lanczos_iter A k = Ret st ->
  (forall j, k < j <= k + steps ->
     exists st', Lanczos_iter A j = Ret st' /\ eqb (lz_b1 st') zero = false) ->
  exists st',
    Lanczos_iter A (k + steps) = Ret st' /\
    Lanczos_loop steps A st =
      Ret {| returned := Lanczos_T A (lz_V st'); printed := [] |}.
Proof.
  revert k st. induction steps as [|steps IH]; intros k st Hk Hclean.
  - exists st. rewrite Nat.add_0_r. split; [exact Hk | reflexivity].
  - destruct (Hclean (S k) ltac:(lia)) as [st1 [Hk1 Hb]].
    pose proof Hk1 as Hs. rewrite Lanczos_iter_S, Hk in Hs. simpl in Hs.
    destruct (IH (S k) st1 Hk1) as [st' [Hit Hrun]].
    { intros j Hj. apply Hclean. lia. }
    exists st'. replace (k + S steps) with (S k + steps) by lia.
    split; [exact Hit|]. simpl. rewrite Hs. simpl. rewrite Hb. exact Hrun.
Qed.

(** The loop from the state after [k] passes, when pass [j] is the first
    to see [b1 == 0], stops there, prints the warning and returns the
    [V] of that pass. *)
Lemma Lanczos_loop_breakdown (steps k j : nat) (st stj : Lanczos_state) :
  Lanczos_iter A k = Ret st ->
  k < j <= k + steps ->
  (forall i, k < i < j ->
     exists st', Lanczos_iter A i = Ret st' /\ eqb (lz_b1 st') zero = false) ->
  Lanczos_iter A j = Ret stj ->
  eqb (lz_b1 stj) zero = true ->
  Lanczos_loop steps A st =
    Ret {| returned := lz_V stj; printed := [breakdown_warning] |}.
Proof.
  revert k st. induction steps as [|steps IH]; intros k st Hk Hj Hclean Hitj Hb.
  - lia.
  - destruct (Nat.eq_dec j (S k)) as [->|Hne].
    + rewrite Lanczos_iter_S, Hk in Hitj. simpl in Hitj.
      simpl. rewrite Hitj. simpl. rewrite Hb. reflexivity.
    + destruct (Hclean (S k) ltac:(lia)) as [st1 [Hk1 Hb1]].
      pose proof Hk1 as Hs. rewrite Lanczos_iter_S, Hk in Hs. simpl in Hs.
      simpl. rewrite Hs. simpl. rewrite Hb1.
      apply (IH (S k) st1 Hk1); auto; try lia.
      intros i Hi. apply Hclean. lia.
Qed.

(** Breakdown seen in the loop: if pass [j] (of the [n-1]) is the first
    after which [b1 == 0], [LanczosTri] prints the warning and returns
    the re-orthogonalized [V] of that pass instead of [T]. *)
Lemma LanczosTri_breakdown_in_loop (j : nat) (stj : Lanczos_state) :
  1 <= j <= shape0 A - 1 ->
  Lanczos_passes_clean A (j - 1) ->
  Lanczos_iter A j = Ret stj ->
  eqb (lz_b1 stj) zero = true ->
  LanczosTri A = Ret {| returned := lz_V stj; printed := [breakdown_warning] |}.
Proof.
  intros Hj [[st0 H0] Hclean] Hitj Hb. unfold LanczosTri.
  change (Lanczos_iter A 0) with (Lanczos_init A) in H0. rewrite H0. simpl.
  apply (@Lanczos_loop_breakdown (shape0 A - 1) 0 j st0 stj); auto; try lia.
  intros i Hi. apply Hclean. lia.
Qed.

(** Shapes along the passes, for a library whose QR keeps shapes. *)
Lemma Lanczos_iter_shapes (n k : nat) (st : Lanczos_state) :
  length A = n ->
  qr_keeps_shape ->
  k < n ->
  Lanczos_iter A k = Ret st ->
  length (lz_q st) = n /\ length (lz_r st) = n /\ has_shape n (S k) (lz_V st).
Proof.
  intros Hn Hqr. revert st. induction k as [|k IH]; intros st Hk Hit.
  - apply Lanczos_init_inv in Hit.
    destruct Hit as (nx & _ & Hq & Hr & _ & _ & HV & _).
    unfold shape0 in *.
    assert (Hlq : length (lz_q st) = n).
    { rewrite Hq, vdiv_length, ones_length. exact Hn. }
    split; [exact Hlq|]. split.
    + rewrite Hr, vsub_length, matvec_length, smul_length. lia.
    + rewrite HV, Hn, (@set_col0_zeros _ n (lz_q st) Hlq). rewrite <- Hlq.
      apply reshape_col_shape.
  - rewrite Lanczos_iter_S in Hit. apply bind_Ret_inv in Hit.
    destruct Hit as [st0 [H0 Hs]].
    destruct (IH st0 ltac:(lia) H0) as (Hq0 & Hr0 & HV0).
    apply Lanczos_step_inv in Hs.
    destruct Hs as (R & Hq & Hr & _ & _ & HQ & _).
    assert (Hlq : length (lz_q st) = n) by (rewrite Hq, vdiv_length; exact Hr0).
    split; [exact Hlq|]. split.
    + rewrite Hr, !vsub_length, matvec_length, !smul_length. lia.
    + apply (Hqr _ _ _ n (S (S k)) (@hstack_shape _ n (S k) _ (lz_q st) HV0 Hlq) ltac:(lia) HQ).
Qed.

Lemma Lanczos_loop_inv (steps k : nat) (st : Lanczos_state)
    (res : Lanczos_result) :
  Lanczos_iter A k = Ret st ->
  Lanczos_loop steps A st = Ret res ->
  (printed res = [] /\
   (forall j, k < j <= k + steps ->
      exists stj, Lanczos_iter A j = Ret stj /\ eqb (lz_b1 stj) zero = false) /\
   exists st',
     Lanczos_iter A (k + steps) = Ret st' /\
     returned res = Lanczos_T A (lz_V st')) \/
  (printed res = [breakdown_warning] /\
   exists j stj,
     k < j <= k + steps /\
     (forall i, k < i < j ->
        exists sti, Lanczos_iter A i = Ret sti /\ eqb (lz_b1 sti) zero = false) /\
     Lanczos_iter A j = Ret stj /\
     eqb (lz_b1 stj) zero = true /\
     returned res = lz_V stj).
Proof.
  revert k st. induction steps as [|steps IH]; intros k st Hk H.
  - injection H as <-. left. simpl. split; [reflexivity|]. split.
    + intros j Hj. lia.
    + exists st. rewrite Nat.add_0_r. auto.
  - cbn [Lanczos_loop] in H. apply bind_Ret_inv in H.
    destruct H as [st1 [Hs H]].
    assert (Hk1 : Lanczos_iter A (S k) = Ret st1).
    { rewrite Lanczos_iter_S, Hk. exact Hs. }
    destruct (eqb (lz_b1 st1) zero) eqn:Hb.
    + injection H as <-. right. simpl. split; [reflexivity|].
      exists (S k), st1. repeat split; auto; try lia.
    + destruct (IH _ _ Hk1 H) as [(Hp & Hclean & st' & Hit & Hret)
                                 | (Hp & j & stj & Hj & Hclean & Hit & Hbj & Hret)].
      * left. split; [exact Hp|]. split.
        -- intros j Hj. destruct (Nat.eq_dec j (S k)) as [->|Hne].
           ++ exists st1. auto.
           ++ apply Hclean. lia.
        -- exists st'. replace (k + S steps) with (S k + steps) by lia. auto.
      * right. split; [exact Hp|]. exists j, stj. repeat split; auto; try lia.
        intros i Hi. destruct (Nat.eq_dec i (S k)) as [->|Hne].
        -- exists st1. auto.
        -- apply Hclean. lia.
Qed.

Lemma Lanczos_T_entries (n : nat) (V : matrix) (i j : nat) :
  has_shape n n A -> has_shape n n V -> 1 <= n -> i < n -> j < n ->
  entry (matmul (matmul (transpose V) A) V) i j =
    vsum (map (fun l =>
                 vsum (map (fun k => entry V k i [*] entry A k l) (seq 0 n))
                 [*] entry V l j)
              (seq 0 n)).
Proof.
  intros HA HV Hpos Hi Hj.
  pose proof (transpose_shape HV Hpos) as HVT.
  assert (HP : has_shape n n (matmul (transpose V) A)).
  { pose proof (matmul_shape (transpose V) A) as H.
    destruct HVT as [E1 _]. rewrite E1 in H.
    rewrite (transpose_length HA Hpos) in H. exact H. }
  rewrite (entry_matmul_sum HP HV Hpos Hi Hj).
  f_equal. apply map_ext_in. intros l Hl. apply in_seq in Hl.
  f_equal. rewrite (entry_matmul_sum HVT HA Hpos Hi) by lia.
  f_equal. apply map_ext_in. intros k Hk. apply in_seq in Hk.
  rewrite (entry_transpose HV Hi) by lia. reflexivity.
Qed.

(** C5: for an [n] by [n] matrix ([n >= 1]), the calls of [LanczosTri]
    that return without the warning are exactly those on which [init]
    and the [n-1] passes raise nothing and [b1 == 0] is false after
    every pass, the last included.  On these [LanczosTri] starts from the
    normalized all-ones vector as the one column of [V], makes exactly
    [n-1] passes, each of which takes [q = r/b1], the new [r], [a1] and
    [b1 = norm(r)], and replaces [V] by the [Q] factor of the whole basis
    with the column [q] appended, and returns [T = V.T @ A @ V] without
    printing; with a QR routine that keeps shapes, [V] and [T] are [n]
    by [n], and [T[i,j]] is the sum over [l] of
    [(sum over k of V[k,i] * A[k,l]) * V[l,j]]. *)
Theorem LanczosTri_completes (n : nat) :
  has_shape n n A ->
  1 <= n ->
  qr_keeps_shape ->
  ((exists res, LanczosTri A = Ret res /\ printed res = []) <->
   Lanczos_passes_clean A (n - 1)) /\
  (Lanczos_passes_clean A (n - 1) ->
   exists (nx : num) (st0 st : Lanczos_state),
     norm (ones n) = Ret nx /\
     Lanczos_iter A 0 = Ret st0 /\
     lz_q st0 = vdiv (ones n) nx /\
     lz_V st0 = reshape_col (vdiv (ones n) nx) /\
     Lanczos_iter A (n - 1) = Ret st /\
     lz_ctr st = Z.of_nat (n - 1) /\
     (forall k, k < n - 1 ->
        exists (prev cur : Lanczos_state) (R : matrix),
          Lanczos_iter A k = Ret prev /\
          Lanczos_iter A (S k) = Ret cur /\
          lz_q cur = vdiv (lz_r prev) (lz_b1 prev) /\
          lz_r cur =
            vsub (vsub (matvec A (lz_q cur)) (smul (lz_b1 prev) (lz_q prev)))
                 (smul (lz_a1 cur) (lz_q cur)) /\
          lz_a1 cur =
            dot (lz_q cur)
                (vsub (matvec A (lz_q cur)) (smul (lz_b1 prev) (lz_q prev))) /\
          norm (lz_r cur) = Ret (lz_b1 cur) /\
          eqb (lz_b1 cur) zero = false /\
          qr (hstack (lz_V prev) (reshape_col (lz_q cur))) = Ret (lz_V cur, R)) /\
     LanczosTri A =
       Ret {| returned := matmul (matmul (transpose (lz_V st)) A) (lz_V st);
              printed := [] |} /\
     has_shape n n (lz_V st) /\
     has_shape n n (matmul (matmul (transpose (lz_V st)) A) (lz_V st)) /\
     forall i j, i < n -> j < n ->
       entry (matmul (matmul (transpose (lz_V st)) A) (lz_V st)) i j =
         vsum (map (fun l =>
                      vsum (map (fun k => entry (lz_V st) k i [*] entry A k l)
                                (seq 0 n))
                      [*] entry (lz_V st) l j)
                   (seq 0 n))).
Proof.
  intros HA Hpos Hqr. pose proof HA as [Hn _].
  assert (Hforth : Lanczos_passes_clean A (n - 1) ->
            exists st0 st,
              Lanczos_iter A 0 = Ret st0 /\
              Lanczos_iter A (n - 1) = Ret st /\
              LanczosTri A =
                Ret {| returned := Lanczos_T A (lz_V st); printed := [] |}).
  { intros [[st0 H0] Hclean].
    destruct (@Lanczos_loop_clean (n - 1) 0 st0 H0) as [st [Hit Hrun]].
    { intros j Hj. apply Hclean. lia. }
    simpl in Hit. exists st0, st. split; [exact H0|]. split; [exact Hit|].
    unfold LanczosTri. change (Lanczos_iter A 0) with (Lanczos_init A) in H0.
    rewrite H0. simpl. unfold shape0. rewrite Hn. exact Hrun. }
  split.
  - split.
    + intros (res & Hres & Hquiet). unfold LanczosTri in Hres.
      apply bind_Ret_inv in Hres. destruct Hres as [st0 [H0 Hloop]].
      unfold shape0 in Hloop. rewrite Hn in Hloop.
      assert (Hi0 : Lanczos_iter A 0 = Ret st0) by exact H0.
      destruct (Lanczos_loop_inv (n - 1) 0 Hi0 Hloop)
        as [(_ & Hclean & _) | (Hp & _)].
      * split; [eauto|]. intros j Hj. apply Hclean. lia.
      * rewrite Hquiet in Hp. discriminate.
    + intros Hclean. destruct (Hforth Hclean) as (st0 & st & _ & _ & Hrun).
      eexists. split; [exact Hrun | reflexivity].
  - intros Hclean. destruct (Hforth Hclean) as (st0 & st & H0 & Hit & Hrun).
    destruct Hclean as [_ Hclean].
    pose proof (Lanczos_init_inv H0)
      as (nx & Hnx & Hq & _ & _ & _ & HV & _).
    unfold shape0 in *. rewrite Hn in *.
    destruct (@Lanczos_iter_shapes n (n - 1) st Hn Hqr ltac:(lia) Hit)
      as (_ & _ & HVn).
    replace (S (n - 1)) with n in HVn by lia.
    exists nx, st0, st.
    split; [exact Hnx|]. split; [exact H0|]. split; [exact Hq|].
    split; [rewrite HV, Hq; apply set_col0_zeros;
            rewrite vdiv_length; apply ones_length|].
    split; [exact Hit|]. split; [apply (Lanczos_iter_ctr _ Hit)|].
    split; [|split; [exact Hrun|split; [exact HVn|split]]].
    + intros k Hk.
      assert (Hprev : exists prev, Lanczos_iter A k = Ret prev).
      { destruct k as [|k]; [eauto|].
        destruct (Hclean (S k) ltac:(lia)) as [prev [Hprev _]]. eauto. }
      destruct Hprev as [prev Hprev].
      destruct (Hclean (S k) ltac:(lia)) as [cur [Hcur Hb]].
      pose proof Hcur as Hs. rewrite Lanczos_iter_S, Hprev in Hs. simpl in Hs.
      apply Lanczos_step_inv in Hs.
      destruct Hs as (R & Hq' & Hr' & Ha' & Hn' & HQ & _).
      exists prev, cur, R. repeat split; assumption.
    + apply (Lanczos_T_shape A HVn Hpos).
    + intros i j Hi Hj. apply (Lanczos_T_entries HA HVn Hpos Hi Hj).
Qed.

End Lanczos_claims.

(** ** The kernels on the store: what a call writes and returns *)

Section Store_facts.
Context {F : Scalar} {L : LinAlg F}.

Lemma seq_read2 {X : Type} (h : heap) (l : loc) (M : matrix) (k : matrix -> stmt X) :
  holds h l (Arr2 M) -> seq_stmt (read2 l) k h = k M h.
Proof.
  intros [_ [o [Hc Hd]]]. unfold seq_stmt, read2. rewrite Hc.
  destruct o as [b d]. simpl in Hd. subst d. reflexivity.
Qed.

Lemma seq_read1 {X : Type} (h : heap) (l : loc) (v : vec) (k : vec -> stmt X) :
  holds h l (Arr1 v) -> seq_stmt (read1 l) k h = k v h.
Proof.
  intros [_ [o [Hc Hd]]]. unfold seq_stmt, read1. rewrite Hc.
  destruct o as [b d]. simpl in Hd. subst d. reflexivity.
Qed.

Lemma seq_alloc {X : Type} (h : heap) (d : ndarray) (k : loc -> stmt X) :
  seq_stmt (alloc d) k h = k (next h) (extend h (own d)).
Proof. reflexivity. Qed.

Lemma seq_view {X : Type} (h : heap) (b : loc) (d : ndarray) (k : loc -> stmt X) :
  seq_stmt (view b d) k h = k (next h) (extend h {| base := Some b; data := d |}).
Proof. reflexivity. Qed.

Lemma seq_store {X : Type} (h : heap) (l : loc) (d : ndarray) (k : unit -> stmt X) :
  seq_stmt (store l d) k h = k tt (update h l d).
Proof. reflexivity. Qed.

Lemma seq_lift_Ret {X Y : Type} (h : heap) (x : X) (k : X -> stmt Y) :
  seq_stmt (lift (Ret x)) k h = k x h.
Proof. reflexivity. Qed.

Lemma seq_ret {X Y : Type} (h : heap) (x : X) (k : X -> stmt Y) :
  seq_stmt (ret x) k h = k x h.
Proof. reflexivity. Qed.

Lemma seq_assoc {X Y Z : Type} (m : stmt X) (k1 : X -> stmt Y) (k2 : Y -> stmt Z)
    (h : heap) :
  seq_stmt (seq_stmt m k1) k2 h = seq_stmt m (fun x => seq_stmt (k1 x) k2) h.
Proof.
  unfold seq_stmt. destruct (m h) as [[x| e |] h']; reflexivity.
Qed.

Lemma holds_extend_own (h : heap) (d : ndarray) :
  holds (extend h (own d)) (next h) d.
Proof.
  split; [simpl; lia|]. exists (own d). simpl. rewrite Nat.eqb_refl. auto.
Qed.

Lemma holds_extend_view (h : heap) (b : loc) (d : ndarray) :
  holds (extend h {| base := Some b; data := d |}) (next h) d.
Proof.
  split; [simpl; lia|]. eexists. simpl. rewrite Nat.eqb_refl. split; reflexivity.
Qed.

Lemma holds_extend_old (h : heap) (o : object) (l : loc) (d : ndarray) :
  holds h l d -> holds (extend h o) l d.
Proof.
  intros [Hl [o' [Hc Hd]]]. split; [simpl; lia|]. exists o'. simpl.
  destruct (Nat.eqb_spec l (next h)); [lia|auto].
Qed.

Lemma holds_update_same (h : heap) (l : loc) (d0 d : ndarray) :
  holds h l d0 -> holds (update h l d) l d.
Proof.
  intros [Hl [o [Hc _]]]. split; [exact Hl|].
  exists {| base := base o; data := d |}. simpl.
  rewrite Nat.eqb_refl, Hc. auto.
Qed.

Lemma holds_update_other (h : heap) (l l' : loc) (d d' : ndarray) :
  l' <> l -> holds h l' d' -> holds (update h l d) l' d'.
Proof.
  intros Hne [Hl [o [Hc Hd]]]. split; [exact Hl|]. exists o. simpl.
  destruct (Nat.eqb_spec l' l); [contradiction|auto].
Qed.

Lemma same_below_refl (n : nat) (h : heap) : same_below n h h.
Proof. split; auto. Qed.

Lemma same_below_extend (n : nat) (h h' : heap) (o : object) :
  n <= next h' -> same_below n h h' -> same_below n h (extend h' o).
Proof.
  intros Hn [Hle Hc]. split; [simpl; lia|]. intros l Hl. simpl.
  destruct (Nat.eqb_spec l (next h')); [lia|auto].
Qed.

Lemma same_below_update (n : nat) (h h' : heap) (l : loc) (d : ndarray) :
  n <= l -> same_below n h h' -> same_below n h (update h' l d).
Proof.
  intros Hn [Hle Hc]. split; [exact Hle|]. intros l' Hl. simpl.
  destruct (Nat.eqb_spec l' l); [lia|auto].
Qed.

Lemma same_below_trans (n : nat) (h1 h2 h3 : heap) :
  same_below n h1 h2 -> same_below n h2 h3 -> same_below n h1 h3.
Proof.
  intros [A1 B1] [A2 B2]. split; [lia|]. intros l Hl. rewrite B2, B1; auto.
Qed.

Lemma same_below_weaken (n n' : nat) (h h' : heap) :
  n <= n' -> same_below n' h h' -> same_below n h h'.
Proof. intros Hn [Hle Hc]. split; [exact Hle|]. intros l Hl. apply Hc. lia. Qed.

Lemma holds_same_below (n : nat) (h h' : heap) (l : loc) (d : ndarray) :
  same_below n h h' -> l < n -> holds h l d -> holds h' l d.
Proof.
  intros [Hle Hc] Hl [Hlt [o [Ho Hd]]]. split; [lia|]. exists o.
  rewrite (Hc _ Hl). auto.
Qed.

Lemma fresh_since_extend_old (n : nat) (h : heap) (o : object) (l : loc) :
  l < next h -> fresh_since n h l -> fresh_since n (extend h o) l.
Proof.
  intros Hl [Hn Hb]. split; [exact Hn|]. intros o' b. simpl.
  destruct (Nat.eqb_spec l (next h)); [lia|apply Hb].
Qed.

Lemma fresh_since_view (n : nat) (h : heap) (b : loc) (d : ndarray) :
  n <= next h -> n <= b ->
  fresh_since n (extend h {| base := Some b; data := d |}) (next h).
Proof.
  intros Hn Hb. split; [exact Hn|]. intros o b'. simpl. rewrite Nat.eqb_refl.
  intros [= <-]. simpl. intros [= <-]. exact Hb.
Qed.

Lemma fresh_since_own (n : nat) (h : heap) (d : ndarray) :
  n <= next h -> fresh_since n (extend h (own d)) (next h).
Proof.
  intros Hn. split; [exact Hn|]. intros o b'. simpl. rewrite Nat.eqb_refl.
  intros [= <-]. simpl. discriminate.
Qed.

Lemma fresh_since_update (n : nat) (h : heap) (l l' : loc) (d : ndarray) :
  fresh_since n h l' -> fresh_since n (update h l d) l'.
Proof.
  intros [Hn Hb]. split; [exact Hn|]. intros o b. simpl.
  destruct (Nat.eqb_spec l' l) as [->|Hne]; [|apply Hb].
  destruct (cell h l) as [o0|] eqn:E; simpl; [|discriminate].
  intros [= <-]. simpl. apply (Hb o0 b eq_refl).
Qed.

Lemma fresh_since_same_below (n n0 : nat) (h h' : heap) (l : loc) :
  same_below n h h' -> l < n -> fresh_since n0 h l -> fresh_since n0 h' l.
Proof.
  intros [_ Hc] Hl [Hn Hb]. split; [exact Hn|]. intros o b.
  rewrite (Hc _ Hl). apply Hb.
Qed.

End Store_facts.

Create HintDb store.
#[export] Hint Resolve holds_extend_own holds_extend_view holds_extend_old
  holds_update_same holds_update_other
  same_below_refl same_below_extend same_below_update : store.
#[export] Hint Extern 2 (_ <> _) => simpl; lia : store.
#[export] Hint Extern 2 (_ <= _) => simpl; lia : store.
#[export] Hint Extern 2 (_ < _) => simpl; lia : store.

(** One statement of a kernel executed on the store. *)
Ltac run_store :=
  repeat first
    [ rewrite seq_assoc
    | rewrite seq_ret
    | rewrite seq_alloc
    | rewrite seq_view
    | rewrite seq_store
    | rewrite seq_lift_Ret
    | erewrite seq_read2 by (eauto 30 with store)
    | erewrite seq_read1 by (eauto 30 with store) ].

Ltac fresh_store :=
  repeat first [ apply fresh_since_extend_old; [simpl; lia|]
               | apply fresh_since_update ];
  first [ apply fresh_since_own; simpl; lia
        | apply fresh_since_view; simpl; lia ].

Ltac frame_store :=
  repeat first [ apply same_below_extend; [simpl; lia|]
               | apply same_below_update; [simpl; lia|] ];
  apply same_below_refl.

Section NSI_on_store_facts.
Context {F : Scalar} {L : LinAlg F}.
Variables (n0 : nat) (a : loc) (Aval : matrix).
Hypothesis Ha : a < n0.

Lemma NSI_body_on_store_sim (h : heap) (nm : NSI_names) (st : NSI_state) :
  n0 <= next h ->
  holds h a (Arr2 Aval) ->
  NSI_names_hold n0 h nm st ->
  exists o h',
    NSI_body_on_store a nm h = (o, h') /\
    same_below (next h) h h' /\
    match NSI_body Aval st with
    | Ret st' => exists nm', o = Ret nm' /\ NSI_names_hold n0 h' nm' st'
    | Raise e => o = Raise e
    | OutOfFuel => o = OutOfFuel
    end.
Proof.
  intros Hn0 HA (HQ & Hres & Hlp & Hctr & Hlam).
  unfold NSI_body_on_store, NSI_body. run_store.
  destruct (qr (matmul Aval (nsi_Q st))) as [[Q R]| e |];
    [| do 2 eexists; split; [reflexivity|]; split; [frame_store|reflexivity] ..].
  run_store. cbn [bind].
  destruct (norm _) as [res| e |];
    [| do 2 eexists; split; [reflexivity|]; split; [frame_store|reflexivity] ..].
  run_store. cbn [bind].
  do 2 eexists. split; [reflexivity|]. split; [frame_store|].
  eexists. split; [reflexivity|].
  unfold NSI_names_hold.
  cbn [at_Q the_residual at_lprev the_ctr at_lam
       nsi_Q nsi_residual nsi_lprev nsi_ctr nsi_lam].
  split; [eauto 30 with store|]. split; [reflexivity|].
  split; [eauto 30 with store|]. split; [congruence|].
  split; [eauto 30 with store|]. fresh_store.
Qed.

Lemma NSI_loop_on_store_sim (tol : num) (maxiter : Z) (fuel : nat)
    (h : heap) (nm : NSI_names) (st : NSI_state) :
  n0 <= next h ->
  holds h a (Arr2 Aval) ->
  NSI_names_hold n0 h nm st ->
  exists o h',
    NSI_loop_on_store fuel a tol maxiter nm h = (o, h') /\
    same_below (next h) h h' /\
    match NSI_loop fuel Aval tol maxiter st with
    | Ret (st', _) => exists nm', o = Ret nm' /\ NSI_names_hold n0 h' nm' st'
    | Raise e => o = Raise e
    | OutOfFuel => o = OutOfFuel
    end.
Proof.
  revert h nm st. induction fuel as [|fuel IH]; intros h nm st Hn0 HA Hnm.
  - do 2 eexists. split; [reflexivity|]. split; [apply same_below_refl|reflexivity].
  - cbn [NSI_loop_on_store NSI_loop]. unfold NSI_guard.
    destruct Hnm as (HQ & Hres & Hrest). rewrite <- Hres.
    destruct (norm [the_residual nm]) as [nr| e |];
      [| do 2 eexists; split; [reflexivity|]; split;
         [apply same_below_refl|reflexivity] ..].
    rewrite seq_lift_Ret. cbn [bind].
    destruct (gtb nr tol).
    + destruct (@NSI_body_on_store_sim h nm st Hn0 HA (conj HQ (conj Hres Hrest)))
        as (o & h1 & E & Hsame & Hsim).
      unfold seq_stmt at 1. rewrite E.
      destruct (NSI_body Aval st) as [st1| e |]; cbn [bind].
      * destruct Hsim as (nm1 & -> & Hnm1).
        assert (Hc : the_ctr nm1 = nsi_ctr st1) by apply Hnm1. rewrite Hc.
        destruct (nsi_ctr st1 =? maxiter)%Z.
        -- do 2 eexists. split; [reflexivity|]. split; [exact Hsame|].
           eexists. split; [reflexivity | exact Hnm1].
        -- assert (Hle : next h <= next h1) by apply Hsame.
           assert (Hn1 : n0 <= next h1) by lia.
           assert (HA1 : holds h1 a (Arr2 Aval))
             by (apply (holds_same_below Hsame); [lia | exact HA]).
           destruct (IH h1 nm1 st1 Hn1 HA1 Hnm1)
             as (o' & h' & E' & Hsame' & Hsim').
           exists o', h'. split; [exact E'|]. split; [|exact Hsim'].
           apply (same_below_trans Hsame).
           apply (same_below_weaken Hle Hsame').
      * subst o. do 2 eexists. split; [reflexivity|]. split; [exact Hsame|reflexivity].
      * subst o. do 2 eexists. split; [reflexivity|]. split; [exact Hsame|reflexivity].
    + do 2 eexists. split; [reflexivity|]. split; [apply same_below_refl|].
      eexists. split; [reflexivity|]. exact (conj HQ (conj Hres Hrest)).
Qed.

End NSI_on_store_facts.

Ltac stops_with_frame :=
  do 2 eexists; split; [reflexivity|]; split; [frame_store | reflexivity].

Section IPI_on_store_facts.
Context {F : Scalar} {L : LinAlg F}.
Variables (Aval : matrix) (B : loc).

Lemma IPI_body_on_store_sim (h : heap) (nm : IPI_names) (st : IPI_state) :
  holds h B (Arr2 (IPI_B Aval)) ->
  IPI_names_hold h nm st ->
  exists o h',
    IPI_body_on_store B nm h = (o, h') /\
    same_below (next h) h h' /\
    match IPI_body Aval st with
    | Ret st' => exists nm', o = Ret nm' /\ IPI_names_hold h' nm' st'
    | Raise e => o = Raise e
    | OutOfFuel => o = OutOfFuel
    end.
Proof.
  intros HB (Hx & Hlo & Herr & Hlam & Hp).
  unfold IPI_body_on_store, IPI_body. run_store.
  destruct (norm (ipi_x st)) as [nx| e |]; [|stops_with_frame ..].
  run_store. cbn [bind].
  destruct (solve (IPI_B Aval) (vdiv (ipi_x st) nx)) as [x| e |];
    [|stops_with_frame ..].
  run_store. cbn [bind].
  do 2 eexists. split; [reflexivity|]. split; [frame_store|].
  eexists. split; [reflexivity|].
  unfold IPI_names_hold.
  cbn [at_x the_lam_old the_err the_lam the_passes
       ipi_x ipi_lam_old ipi_err ipi_lam ipi_passes].
  rewrite Hlo, Hp. split; [eauto 30 with store|]. repeat split.
Qed.

Lemma IPI_loop_on_store_sim (tol : num) (fuel : nat)
    (h : heap) (nm : IPI_names) (st : IPI_state) :
  holds h B (Arr2 (IPI_B Aval)) ->
  IPI_names_hold h nm st ->
  exists o h',
    IPI_loop_on_store fuel B tol nm h = (o, h') /\
    same_below (next h) h h' /\
    match IPI_loop fuel Aval tol st with
    | Ret st' => exists nm', o = Ret nm' /\ IPI_names_hold h' nm' st'
    | Raise e => o = Raise e
    | OutOfFuel => o = OutOfFuel
    end.
Proof.
  revert h nm st. induction fuel as [|fuel IH]; intros h nm st HB Hnm.
  - stops_with_frame.
  - cbn [IPI_loop_on_store IPI_loop].
    assert (Herr : the_err nm = ipi_err st) by apply Hnm. rewrite Herr.
    destruct (gtb (ipi_err st) tol).
    + destruct (IPI_body_on_store_sim HB Hnm) as (o & h1 & E & Hsame & Hsim).
      unfold seq_stmt at 1. rewrite E.
      destruct (IPI_body Aval st) as [st1| e |]; cbn [bind].
      * destruct Hsim as (nm1 & -> & Hnm1).
        assert (Hle : next h <= next h1) by apply Hsame.
        assert (HB1 : holds h1 B (Arr2 (IPI_B Aval))).
        { apply (holds_same_below Hsame); [apply HB | exact HB]. }
        destruct (IH h1 nm1 st1 HB1 Hnm1) as (o' & h' & E' & Hsame' & Hsim').
        exists o', h'. split; [exact E'|]. split; [|exact Hsim'].
        apply (same_below_trans Hsame). apply (same_below_weaken Hle Hsame').
      * subst o. do 2 eexists. split; [reflexivity|]. split; [exact Hsame|reflexivity].
      * subst o. do 2 eexists. split; [reflexivity|]. split; [exact Hsame|reflexivity].
    + do 2 eexists. split; [reflexivity|]. split; [apply same_below_refl|].
      eexists. split; [reflexivity | exact Hnm].
Qed.

End IPI_on_store_facts.

Section Lanczos_on_store_facts.
Context {F : Scalar} {L : LinAlg F}.
Variables (n0 : nat) (a : loc) (Aval : matrix).
Hypothesis Ha : a < n0.

Lemma Lanczos_step_on_store_sim (h : heap) (nm : Lanczos_names) (st : Lanczos_state) :
  n0 <= next h ->
  holds h a (Arr2 Aval) ->
  Lanczos_names_hold n0 h nm st ->
  exists o h',
    Lanczos_step_on_store a nm h = (o, h') /\
    same_below (next h) h h' /\
    match Lanczos_step Aval st with
    | Ret st' => exists nm', o = Ret nm' /\ Lanczos_names_hold n0 h' nm' st'
    | Raise e => o = Raise e
    | OutOfFuel => o = OutOfFuel
    end.
Proof.
  intros Hn0 HA (Hq & Hr & Ha1 & Hb1 & HV & HVf & Hc).
  unfold Lanczos_step_on_store, Lanczos_step. rewrite Hb1. run_store.
  destruct (norm _) as [b1| e |]; [|stops_with_frame ..].
  run_store. cbn [bind].
  destruct (qr _) as [[Q R]| e |]; [|stops_with_frame ..].
  run_store. cbn [bind].
  do 2 eexists. split; [reflexivity|]. split; [frame_store|].
  eexists. split; [reflexivity|].
  unfold Lanczos_names_hold.
  cbn [at_q at_r the_a1 the_b1 at_V the_count lz_q lz_r lz_a1 lz_b1 lz_V lz_ctr].
  split; [eauto 30 with store|]. split; [eauto 30 with store|].
  split; [reflexivity|]. split; [reflexivity|].
  split; [eauto 30 with store|]. split; [fresh_store | congruence].
Qed.

Lemma Lanczos_loop_on_store_sim (steps : nat)
    (h : heap) (nm : Lanczos_names) (st : Lanczos_state) :
  n0 <= next h ->
  holds h a (Arr2 Aval) ->
  Lanczos_names_hold n0 h nm st ->
  exists o h',
    Lanczos_loop_on_store steps a nm h = (o, h') /\
    same_below (next h) h h' /\
    match Lanczos_loop steps Aval st with
    | Ret res =>
        exists l, o = Ret (l, printed res) /\
                  holds h' l (Arr2 (returned res)) /\ fresh_since n0 h' l
    | Raise e => o = Raise e
    | OutOfFuel => o = OutOfFuel
    end.
Proof.
  revert h nm st. induction steps as [|steps IH]; intros h nm st Hn0 HA Hnm.
  - destruct Hnm as (Hq & Hr & Ha1 & Hb1 & HV & HVf & Hc).
    cbn [Lanczos_loop_on_store Lanczos_loop]. unfold Lanczos_T. run_store.
    do 2 eexists. split; [reflexivity|]. split; [frame_store|].
    eexists. split; [reflexivity|]. cbn [returned printed].
    split; [eauto 30 with store | fresh_store].
  - cbn [Lanczos_loop_on_store Lanczos_loop].
    destruct (Lanczos_step_on_store_sim Hn0 HA Hnm) as (o & h1 & E & Hsame & Hsim).
    unfold seq_stmt at 1. rewrite E.
    destruct (Lanczos_step Aval st) as [st1| e |]; cbn [bind].
    + destruct Hsim as (nm1 & -> & Hnm1).
      assert (Hb : the_b1 nm1 = lz_b1 st1) by apply Hnm1. rewrite Hb.
      destruct (eqb (lz_b1 st1) zero).
      * do 2 eexists. split; [reflexivity|]. split; [exact Hsame|].
        eexists. split; [reflexivity|]. cbn [returned printed].
        split; apply Hnm1.
      * assert (Hle : next h <= next h1) by apply Hsame.
        assert (Hn1 : n0 <= next h1) by lia.
        assert (HA1 : holds h1 a (Arr2 Aval))
          by (apply (holds_same_below Hsame); [lia | exact HA]).
        destruct (IH h1 nm1 st1 Hn1 HA1 Hnm1) as (o' & h' & E' & Hsame' & Hsim').
        exists o', h'. split; [exact E'|]. split; [|exact Hsim'].
        apply (same_below_trans Hsame). apply (same_below_weaken Hle Hsame').
    + subst o. do 2 eexists. split; [reflexivity|]. split; [exact Hsame|reflexivity].
    + subst o. do 2 eexists. split; [reflexivity|]. split; [exact Hsame|reflexivity].
Qed.

End Lanczos_on_store_facts.

Section Kernels_on_store_facts.
Context {F : Scalar} {L : LinAlg F}.

(** [NSI] on the store: the objects of the caller are as before, and
    the vector returned is a view made during the call on memory
    allocated during the call. *)
Lemma NSI_on_store_sim (h : heap) (a : loc) (Aval : matrix)
    (fuel : nat) (tol : num) (maxiter : Z) :
  holds h a (Arr2 Aval) ->
  returns_fresh h (NSI_on_store fuel a tol maxiter h) (NSI fuel Aval tol maxiter)
    (fun h' l lam => holds h' l (Arr1 lam) /\ fresh_since (next h) h' l).
Proof.
  intros HA. assert (Ha : a < next h) by apply HA.
  unfold NSI_on_store, NSI_init_on_store, NSI, NSI_run. run_store.
  match goal with
  | |- context [seq_stmt (NSI_loop_on_store fuel a tol maxiter ?nm) _ ?h0] =>
      destruct (@NSI_loop_on_store_sim _ _ (next h) a Aval Ha tol maxiter fuel
                  h0 nm (NSI_init Aval))
        as (o & h' & E & Hsame & Hsim)
  end.
  - simpl. lia.
  - eauto 30 with store.
  - unfold NSI_names_hold, NSI_init.
    cbn [at_Q the_residual at_lprev the_ctr at_lam
         nsi_Q nsi_residual nsi_lprev nsi_ctr nsi_lam].
    split; [eauto 30 with store|]. split; [reflexivity|].
    split; [eauto 30 with store|]. split; [reflexivity | exact I].
  - unfold seq_stmt at 1. rewrite E.
    assert (Hframe : same_below (next h) h h').
    { refine (same_below_trans _ (same_below_weaken _ Hsame)); [frame_store|].
      simpl. lia. }
    destruct (NSI_loop fuel Aval tol maxiter (NSI_init Aval)) as [[st how]| e |];
      cbn [bind].
    + destruct Hsim as (nm & -> & Hnm).
      destruct Hnm as (_ & _ & _ & _ & Hlam).
      destruct (at_lam nm) as [l|], (nsi_lam st) as [lam|]; try contradiction;
        split; try exact Hframe; cbn.
      * exists l. split; [reflexivity | exact Hlam].
      * reflexivity.
    + subst o. split; [exact Hframe | reflexivity].
    + subst o. split; [exact Hframe | reflexivity].
Qed.

(** [IPI] on the store: the objects of the caller are as before; the
    value returned is a number, not an array. *)
Lemma IPI_on_store_sim (h : heap) (a : loc) (Aval : matrix)
    (fuel : nat) (tol : num) (maxiter : Z) :
  holds h a (Arr2 Aval) ->
  returns_fresh h (IPI_on_store fuel a tol maxiter h) (IPI fuel Aval tol maxiter)
    (fun _ x y => x = y).
Proof.
  intros HA. assert (Ha : a < next h) by apply HA.
  unfold IPI_on_store, IPI_init_on_store, IPI, IPI_run. run_store.
  match goal with
  | |- context [seq_stmt (IPI_loop_on_store fuel ?B tol ?nm) _ ?h0] =>
      destruct (@IPI_loop_on_store_sim _ _ Aval B tol fuel h0 nm (IPI_init Aval))
        as (o & h' & E & Hsame & Hsim)
  end.
  - unfold IPI_B. eauto 30 with store.
  - unfold IPI_names_hold, IPI_init.
    cbn [at_x the_lam_old the_err the_lam the_passes
         ipi_x ipi_lam_old ipi_err ipi_lam ipi_passes].
    split; [eauto 30 with store|]. repeat split.
  - unfold seq_stmt at 1. rewrite E.
    assert (Hframe : same_below (next h) h h').
    { refine (same_below_trans _ (same_below_weaken _ Hsame)); [frame_store|].
      simpl. lia. }
    destruct (IPI_loop fuel Aval tol (IPI_init Aval)) as [st| e |]; cbn [bind].
    + destruct Hsim as (nm & -> & Hnm).
      assert (Hlam : the_lam nm = ipi_lam st) by apply Hnm.
      split; [exact Hframe|]. cbn. rewrite Hlam.
      destruct (ipi_lam st) as [lam|]; cbn; eauto.
    + subst o. split; [exact Hframe | reflexivity].
    + subst o. split; [exact Hframe | reflexivity].
Qed.

Lemma Lanczos_init_on_store_sim (h : heap) (a : loc) (Aval : matrix) :
  holds h a (Arr2 Aval) ->
  exists o h',
    Lanczos_init_on_store a h = (o, h') /\
    same_below (next h) h h' /\
    match Lanczos_init Aval with
    | Ret st => exists nm, o = Ret nm /\ Lanczos_names_hold (next h) h' nm st
    | Raise e => o = Raise e
    | OutOfFuel => o = OutOfFuel
    end.
Proof.
  intros HA. assert (Ha : a < next h) by apply HA.
  unfold Lanczos_init_on_store, Lanczos_init. run_store.
  destruct (norm (ones (shape0 Aval))) as [nx| e |]; [|stops_with_frame ..].
  run_store. cbn [bind].
  destruct (norm _) as [b1| e |]; [|stops_with_frame ..].
  run_store. cbn [bind].
  do 2 eexists. split; [reflexivity|]. split; [frame_store|].
  eexists. split; [reflexivity|].
  unfold Lanczos_names_hold.
  cbn [at_q at_r the_a1 the_b1 at_V the_count lz_q lz_r lz_a1 lz_b1 lz_V lz_ctr].
  split; [eauto 30 with store|]. split; [eauto 30 with store|].
  split; [reflexivity|]. split; [reflexivity|].
  split; [eauto 30 with store|]. split; [fresh_store | reflexivity].
Qed.

(** [LanczosTri] on the store: the objects of the caller are as before,
    and the matrix returned, [T] or [V], was allocated during the call. *)
Lemma LanczosTri_on_store_sim (h : heap) (a : loc) (Aval : matrix) :
  holds h a (Arr2 Aval) ->
  returns_fresh h (LanczosTri_on_store a h) (LanczosTri Aval)
    (fun h' r res =>
       holds h' (fst r) (Arr2 (returned res)) /\
       fresh_since (next h) h' (fst r) /\
       snd r = printed res).
Proof.
  intros HA. assert (Ha : a < next h) by apply HA.
  unfold LanczosTri_on_store, LanczosTri. run_store.
  destruct (Lanczos_init_on_store_sim HA) as (o & h1 & E & Hsame & Hsim).
  unfold seq_stmt at 1. rewrite E.
  destruct (Lanczos_init Aval) as [st| e |]; cbn [bind].
  - destruct Hsim as (nm & -> & Hnm).
    assert (Hle : next h <= next h1) by apply Hsame.
    assert (HA1 : holds h1 a (Arr2 Aval))
      by (apply (holds_same_below Hsame); [lia | exact HA]).
    destruct (@Lanczos_loop_on_store_sim _ _ (next h) a Aval Ha
                (shape0 Aval - 1) h1 nm st Hle HA1 Hnm)
      as (o' & h' & E' & Hsame' & Hsim').
    rewrite E'.
    assert (Hframe : same_below (next h) h h').
    { apply (same_below_trans Hsame). apply (same_below_weaken Hle Hsame'). }
    split; [exact Hframe|]. cbn [fst snd].
    destruct (Lanczos_loop (shape0 Aval - 1) Aval st) as [res| e |].
    + destruct Hsim' as (l & -> & Hl & Hf). exists (l, printed res). auto.
    + exact Hsim'.
    + exact Hsim'.
  - subst o. split; [exact Hsame | reflexivity].
  - subst o. split; [exact Hsame | reflexivity].
Qed.

(** C9: on a store in which [A] names a matrix, a call of any of the
    three kernels leaves every object that existed before the call, [A]
    among them, with the entries it had, however the call ends; the
    vector [NSI] returns and the matrix [LanczosTri] returns are objects
    allocated during the call, resting on memory allocated during the
    call, and show the values of the embedded kernels; [IPI] returns a
    number. *)
Theorem kernels_leave_their_input (h : heap) (A : loc) (Aval : matrix) :
  holds h A (Arr2 Aval) ->
  (forall fuel tol maxiter,
     returns_fresh h (NSI_on_store fuel A tol maxiter h) (NSI fuel Aval tol maxiter)
       (fun h' l lam => holds h' l (Arr1 lam) /\ fresh_since (next h) h' l)) /\
  (forall fuel tol maxiter,
     returns_fresh h (IPI_on_store fuel A tol maxiter h) (IPI fuel Aval tol maxiter)
       (fun _ x y => x = y)) /\
  returns_fresh h (LanczosTri_on_store A h) (LanczosTri Aval)
    (fun h' r res =>
       holds h' (fst r) (Arr2 (returned res)) /\
       fresh_since (next h) h' (fst r) /\
       snd r = printed res) /\
  (forall fuel tol maxiter,
     holds (snd (NSI_on_store fuel A tol maxiter h)) A (Arr2 Aval) /\
     holds (snd (IPI_on_store fuel A tol maxiter h)) A (Arr2 Aval)) /\
  holds (snd (LanczosTri_on_store A h)) A (Arr2 Aval).
Proof.
  intros HA. assert (Ha : A < next h) by apply HA.
  assert (H1 := fun fuel tol maxiter => @NSI_on_store_sim h A Aval fuel tol maxiter HA).
  assert (H2 := fun fuel tol maxiter => @IPI_on_store_sim h A Aval fuel tol maxiter HA).
  assert (H3 := LanczosTri_on_store_sim HA).
  split; [exact H1|]. split; [exact H2|]. split; [exact H3|]. split.
  - intros fuel tol maxiter. split.
    + destruct (H1 fuel tol maxiter) as [Hs _].
      exact (holds_same_below Hs Ha HA).
    + destruct (H2 fuel tol maxiter) as [Hs _].
      exact (holds_same_below Hs Ha HA).
  - destruct H3 as [Hs _]. exact (holds_same_below Hs Ha HA).
Qed.

End Kernels_on_store_facts.

(** ** Loops that are not entered, loops that end and loops that do not *)

Section Loop_facts.
Context {F : Scalar} {L : LinAlg F}.

(** X1: when the first test [norm(residual) > tol] of [NSI] is false, no
    pass is made, [lam] is never assigned and [return(lam)] raises
    [UnboundLocalError]; conversely a value is returned only after the
    first test held and at least one pass was made. *)
Theorem NSI_needs_a_first_pass (A : matrix) (tol : num) (maxiter : Z) (fuel : nat) :
  (NSI_guard tol (NSI_init A) = Ret false ->
   NSI (S fuel) A tol maxiter = Raise UnboundLocalError) /\
  (forall lam, NSI fuel A tol maxiter = Ret lam ->
     NSI_guard tol (NSI_init A) = Ret true /\
     exists k st, NSI_iter A (S k) = Ret st /\ nsi_lam st = Some lam).
Proof.
  split.
  - intros Hg. unfold NSI, NSI_run. cbn [NSI_loop]. rewrite Hg. reflexivity.
  - intros lam H. unfold NSI in H.
    apply bind_Ret_inv in H. destruct H as [[st how] [Hrun Hret]].
    assert (Hlam : nsi_lam st = Some lam).
    { destruct (nsi_lam st); [injection Hret as ->; reflexivity | discriminate]. }
    split.
    + unfold NSI_run in Hrun. destruct fuel as [|fuel]; [discriminate|].
      cbn [NSI_loop] in Hrun.
      destruct (NSI_guard tol (NSI_init A)) as [[|]| e |]; try discriminate.
      * reflexivity.
      * injection Hrun as <- _. discriminate Hlam.
    + destruct (@NSI_loop_reaches _ _ A tol maxiter fuel 0 (NSI_init A) st how
                  eq_refl Hrun) as [k [_ Hk]].
      destruct k as [|k].
      * injection Hk as <-. discriminate Hlam.
      * exists k, st. split; assumption.
Qed.

(** X2: when the first test [err > tol] of [IPI] is false ([tol >= 1], or
    a NaN), no pass is made and [return(lam)] raises [UnboundLocalError];
    a value is returned only after the first test held and at least one
    pass was made. *)
Theorem IPI_needs_a_first_pass (A : matrix) (tol : num) (maxiter : Z) (fuel : nat) :
  (gtb (of_Z 1) tol = false ->
   IPI (S fuel) A tol maxiter = Raise UnboundLocalError) /\
  (forall lam, IPI fuel A tol maxiter = Ret lam ->
     gtb (of_Z 1) tol = true /\
     exists st, IPI_run fuel A tol maxiter = Ret st /\
                1 <= ipi_passes st /\ ipi_lam st = Some lam).
Proof.
  split.
  - intros Hg. unfold IPI, IPI_run. cbn [IPI_loop].
    change (ipi_err (IPI_init A)) with (of_Z 1). rewrite Hg. reflexivity.
  - intros lam H. unfold IPI in H.
    apply bind_Ret_inv in H. destruct H as [st [Hrun Hret]].
    assert (Hlam : ipi_lam st = Some lam).
    { destruct (ipi_lam st); [injection Hret as ->; reflexivity | discriminate]. }
    assert (Hpos : 1 <= ipi_passes st).
    { destruct (@IPI_loop_passes _ _ fuel 0 A tol (IPI_init A) st eq_refl Hrun)
        as (k & _ & Hk & _).
      destruct k as [|k].
      - injection Hk as <-. discriminate Hlam.
      - rewrite (IPI_iter_passes _ _ Hk). lia. }
    split.
    + unfold IPI_run in Hrun. destruct fuel as [|fuel]; [discriminate|].
      cbn [IPI_loop] in Hrun. change (ipi_err (IPI_init A)) with (of_Z 1) in Hrun.
      destruct (gtb (of_Z 1) tol); [reflexivity|].
      injection Hrun as <-. discriminate Hlam.
    + exists st. auto.
Qed.

Lemma NSI_loop_ends (A : matrix) (tol : num) (maxiter : Z) (fuel : nat)
    (st : NSI_state) :
  library_comes_back ->
  (nsi_ctr st < maxiter)%Z ->
  (maxiter - nsi_ctr st <= Z.of_nat fuel)%Z ->
  NSI_loop fuel A tol maxiter st <> OutOfFuel /\
  forall st' how, NSI_loop fuel A tol maxiter st = Ret (st', how) ->
    (nsi_ctr st <= nsi_ctr st' <= maxiter)%Z.
Proof.
  intros (Hnorm & Hqr & _). revert st.
  induction fuel as [|fuel IH]; intros st Hlt Hfuel; [lia|].
  cbn [NSI_loop]. unfold NSI_guard.
  pose proof (Hnorm [nsi_residual st]) as Hn.
  destruct (norm [nsi_residual st]) as [nr| e |]; [|split; [|intros]; discriminate|
    contradiction].
  cbn [bind]. destruct (gtb nr tol).
  - destruct (NSI_body A st) as [st1| e |] eqn:Hb.
    + cbn [bind]. pose proof (NSI_body_inv _ _ Hb)
        as (Q & R & lam & _ & _ & _ & _ & _ & Hc & _).
      destruct (Z.eqb_spec (nsi_ctr st1) maxiter) as [He|Hne].
      * split; [discriminate|]. intros st' how [= <- _]. lia.
      * destruct (IH st1 ltac:(lia) ltac:(lia)) as [Hne' Hb'].
        split; [exact Hne'|]. intros st' how H. specialize (Hb' _ _ H). lia.
    + split; [|intros]; discriminate.
    + exfalso. unfold NSI_body in Hb.
      pose proof (Hqr (matmul A (nsi_Q st))) as Hq.
      destruct (qr (matmul A (nsi_Q st))) as [[Q R]| e |]; try discriminate;
        [|contradiction].
      cbn [bind] in Hb.
      match type of Hb with context [norm ?v] =>
        pose proof (Hnorm v) as Hn2; destruct (norm v); try discriminate;
        contradiction
      end.
  - split; [discriminate|]. intros st' how [= <- _]. lia.
Qed.

(** X3: with [maxiter >= 1] the loop of [NSI] ends after at most
    [maxiter] passes whatever [qr] and [norm] return or raise: given fuel
    for [maxiter] passes the run comes back, and a run that returns has
    [0 <= ctr <= maxiter]. *)
Theorem NSI_ends_within_cap (A : matrix) (tol : num) (maxiter : Z) (fuel : nat) :
  library_comes_back ->
  (1 <= maxiter)%Z ->
  (maxiter <= Z.of_nat fuel)%Z ->
  NSI_run fuel A tol maxiter <> OutOfFuel /\
  NSI fuel A tol maxiter <> OutOfFuel /\
  forall st how, NSI_run fuel A tol maxiter = Ret (st, how) ->
    (0 <= nsi_ctr st <= maxiter)%Z.
Proof.
  intros Hlib Hmax Hfuel.
  destruct (@NSI_loop_ends A tol maxiter fuel (NSI_init A) Hlib
              ltac:(simpl; lia) ltac:(simpl; lia)) as [Hne Hb].
  split; [exact Hne|]. split; [|exact Hb].
  unfold NSI. unfold NSI_run in Hne.
  destruct (NSI_run fuel A tol maxiter) as [[st how]| e |] eqn:E;
    unfold NSI_run in E; rewrite E in *; cbn [bind].
  - destruct (nsi_lam st); discriminate.
  - discriminate.
  - contradiction.
Qed.

Lemma IPI_body_err (A : matrix) (prev st : IPI_state) :
  IPI_body A prev = Ret st ->
  exists lam,
    ipi_lam st = Some lam /\ ipi_lam_old st = lam /\
    ipi_err st = abs (ipi_lam_old prev [-] lam).
Proof.
  unfold IPI_body. intros H.
  apply bind_Ret_inv in H. destruct H as [nx [_ H]].
  apply bind_Ret_inv in H. destruct H as [x [_ H]].
  injection H as <-. simpl. eauto.
Qed.

(** X4: [IPI] has no exit but its test [err > tol], whatever [maxiter]
    is.  With a tolerance that only a NaN meets (in binary64 every
    negative tolerance), a call that returns has made at least one pass
    and its last pass ended with a NaN for [lam_old - lam]: the error
    [|lam_old - lam|] that failed the test [err > tol] is a NaN. *)
Theorem IPI_returns_through_NaN_only
    (A : matrix) (tol : num) (maxiter : Z) (fuel : nat) (lam : num) :
  tolerance_met_by_NaN_only tol ->
  IPI fuel A tol maxiter = Ret lam ->
  exists (k : nat) (prev st : IPI_state),
    IPI_iter A k = Ret prev /\
    IPI_body A prev = Ret st /\
    IPI_run fuel A tol maxiter = Ret st /\
    ipi_lam st = Some lam /\
    ipi_err st = abs (ipi_lam_old prev [-] lam) /\
    eqb (ipi_lam_old prev [-] lam) (ipi_lam_old prev [-] lam) = false.
Proof.
  intros [H1 Hnan] H. unfold IPI in H.
  apply bind_Ret_inv in H. destruct H as [st [Hrun Hret]].
  assert (Hlam : ipi_lam st = Some lam).
  { destruct (ipi_lam st); [injection Hret as ->; reflexivity | discriminate]. }
  unfold IPI_run in Hrun.
  pose proof (IPI_loop_exit _ _ _ _ Hrun) as Hexit.
  destruct (@IPI_loop_passes _ _ fuel 0 A tol (IPI_init A) st eq_refl Hrun)
    as (k & _ & Hk & _).
  destruct k as [|k]; [injection Hk as <-; discriminate Hlam|].
  cbn [IPI_iter] in Hk. apply bind_Ret_inv in Hk. destruct Hk as [prev [Hprev Hb]].
  destruct (IPI_body_err _ _ Hb) as (lam' & Hl' & _ & Herr).
  rewrite Hlam in Hl'. injection Hl' as <-.
  exists k, prev, st. repeat split; try assumption.
  apply Hnan. rewrite <- Herr. exact Hexit.
Qed.

(** X5: with [maxiter <= 0] the cap of [NSI] is never met: for a
    tolerance that no residual norm meets, [NSI] never returns. *)
Theorem NSI_runs_on_without_cap
    (A : matrix) (tol : num) (maxiter : Z) (fuel : nat) (lam : vec) :
  (maxiter <= 0)%Z ->
  residual_out_of_reach tol ->
  NSI fuel A tol maxiter <> Ret lam.
Proof.
  intros Hmax Hres H. unfold NSI in H.
  apply bind_Ret_inv in H. destruct H as [[st how] [Hrun _]].
  unfold NSI_run in Hrun.
  destruct (@NSI_loop_uncapped _ _ A tol maxiter fuel (NSI_init A) st how
              Hmax Hrun) as [_ Hg].
  unfold NSI_guard in Hg.
  destruct (norm [nsi_residual st]) as [nr| e |] eqn:E; try discriminate.
  cbn [bind] in Hg. rewrite (Hres _ _ E) in Hg. discriminate.
Qed.

End Loop_facts.

(** ** What the kernels return: sizes and the two returns of LanczosTri *)

Section Return_facts.
Context {F : Scalar} {L : LinAlg F}.

Lemma identity_shape (n : nat) : has_shape n n (identity n).
Proof.
  split.
  - unfold identity. rewrite length_map, length_seq. reflexivity.
  - apply Forall_forall. intros row Hin. unfold identity in Hin.
    apply in_map_iff in Hin. destruct Hin as [i [<- _]].
    rewrite length_map, length_seq. reflexivity.
Qed.

Lemma diagonal_length (n : nat) (M : matrix) :
  has_shape n n M -> 1 <= n -> length (diagonal M) = n.
Proof.
  intros HM Hpos. unfold diagonal. rewrite length_map, length_seq.
  rewrite (has_shape_ncols HM Hpos). destruct HM as [-> _]. lia.
Qed.

Lemma NSI_iter_shapes (A : matrix) (n k : nat) (st : NSI_state) :
  has_shape n n A -> 1 <= n -> qr_keeps_shape ->
  NSI_iter A k = Ret st ->
  has_shape n n (nsi_Q st) /\
  forall lam, nsi_lam st = Some lam -> length lam = n.
Proof.
  intros HA Hpos Hqr. revert st. induction k as [|k IH]; intros st Hit.
  - injection Hit as <-. simpl. unfold shape0. destruct HA as [-> _].
    split; [apply identity_shape | discriminate].
  - simpl in Hit. apply bind_Ret_inv in Hit. destruct Hit as [st0 [H0 Hb]].
    destruct (IH _ H0) as [HQ0 _].
    apply NSI_body_inv in Hb.
    destruct Hb as (Q & R & lam & Hq & Hlam & _ & HQ & _ & _ & Hl).
    assert (HAQ : has_shape n n (matmul A (nsi_Q st0))).
    { pose proof (matmul_shape A (nsi_Q st0)) as H.
      rewrite (transpose_length HQ0 Hpos) in H. destruct HA as [Hn _].
      rewrite Hn in H. exact H. }
    assert (HQs : has_shape n n Q) by (apply (Hqr _ _ _ n n HAQ (le_n n) Hq)).
    split; [rewrite HQ; exact HQs|].
    intros lam' Hl'. rewrite Hl in Hl'. injection Hl' as <-. rewrite Hlam.
    apply diagonal_length; [|exact Hpos].
    pose proof (matmul_shape (matmul (transpose Q) A) Q) as H.
    rewrite (transpose_length HQs Hpos) in H.
    destruct (matmul_shape (transpose Q) A) as [Hlen _].
    rewrite Hlen, (transpose_length HQs Hpos) in H. exact H.
Qed.

(** X6: for an [n] by [n] matrix ([n >= 1]) and a QR routine that keeps
    shapes, [Q] is [n] by [n] after every pass of [NSI] and the vector
    [NSI] returns has exactly [n] entries. *)
Theorem NSI_returns_n_values
    (A : matrix) (n : nat) (tol : num) (maxiter : Z) (fuel : nat) (lam : vec) :
  has_shape n n A -> 1 <= n -> qr_keeps_shape ->
  NSI fuel A tol maxiter = Ret lam ->
  length lam = n /\
  exists k st, NSI_iter A k = Ret st /\ nsi_lam st = Some lam /\
               has_shape n n (nsi_Q st).
Proof.
  intros HA Hpos Hqr H. unfold NSI in H.
  apply bind_Ret_inv in H. destruct H as [[st how] [Hrun Hret]].
  assert (Hlam : nsi_lam st = Some lam).
  { destruct (nsi_lam st); [injection Hret as ->; reflexivity | discriminate]. }
  destruct (@NSI_loop_reaches _ _ A tol maxiter fuel 0 (NSI_init A) st how
              eq_refl Hrun) as [k [_ Hk]].
  destruct (NSI_iter_shapes k HA Hpos Hqr Hk) as [HQ Hlen].
  split; [exact (Hlen _ Hlam)|]. exists k, st. auto.
Qed.


End Return_facts.

(** ** SymmMat returns a symmetric matrix *)

Section SymmMat_facts.
Context {F : Scalar}.

Lemma triu_shape (n m : nat) (M : matrix) :
  has_shape n m M -> has_shape n m (triu M).
Proof.
  intros [Hn Hrows]. split.
  - unfold triu. rewrite zip_with_length, length_seq. lia.
  - unfold triu. apply zip_with_Forall. intros i row _ Hrow.
    rewrite zip_with_length, length_seq. rewrite Forall_forall in Hrows.
    rewrite (Hrows _ Hrow). lia.
Qed.

Lemma entry_triu (n m : nat) (M : matrix) (i j : nat) :
  has_shape n m M -> i < n -> j < m ->
  entry (triu M) i j = if Nat.ltb j i then zero else entry M i j.
Proof.
  intros HM Hi Hj. unfold entry, triu. pose proof HM as [Hn _].
  rewrite (nth_zip_with _ _ _ 0 [] []) by (rewrite ?length_seq; lia).
  rewrite seq_nth by lia. simpl.
  rewrite (nth_zip_with _ _ _ 0 zero zero)
    by (rewrite ?length_seq, (row_length HM Hi); lia).
  rewrite seq_nth by (rewrite (row_length HM Hi); lia). reflexivity.
Qed.

Lemma zip2_shape (f : num -> num -> num) (n m : nat) (M N : matrix) :
  has_shape n m M -> has_shape n m N ->
  has_shape n m (zip_with (zip_with f) M N).
Proof.
  intros [HnM HrM] [HnN HrN]. split.
  - rewrite zip_with_length. lia.
  - apply zip_with_Forall. intros r1 r2 H1 H2. rewrite zip_with_length.
    rewrite Forall_forall in HrM, HrN. rewrite (HrM _ H1), (HrN _ H2). lia.
Qed.

Lemma entry_zip2 (f : num -> num -> num) (n m : nat) (M N : matrix) (i j : nat) :
  has_shape n m M -> has_shape n m N -> i < n -> j < m ->
  entry (zip_with (zip_with f) M N) i j = f (entry M i j) (entry N i j).
Proof.
  intros HM HN Hi Hj. unfold entry.
  pose proof HM as [HnM _]. pose proof HN as [HnN _].
  rewrite (nth_zip_with _ _ _ [] [] []) by lia.
  apply nth_zip_with; rewrite ?(row_length HM Hi), ?(row_length HN Hi); lia.
Qed.

Lemma madd_shape (n m : nat) (M N : matrix) :
  has_shape n m M -> has_shape n m N -> has_shape n m (madd M N).
Proof. exact (@zip2_shape add n m M N). Qed.

Lemma msub_shape (n m : nat) (M N : matrix) :
  has_shape n m M -> has_shape n m N -> has_shape n m (msub M N).
Proof. exact (@zip2_shape sub n m M N). Qed.

Lemma entry_madd (n m : nat) (M N : matrix) (i j : nat) :
  has_shape n m M -> has_shape n m N -> i < n -> j < m ->
  entry (madd M N) i j = entry M i j [+] entry N i j.
Proof. exact (@entry_zip2 add n m M N i j). Qed.

Lemma entry_msub (n m : nat) (M N : matrix) (i j : nat) :
  has_shape n m M -> has_shape n m N -> i < n -> j < m ->
  entry (msub M N) i j = entry M i j [-] entry N i j.
Proof. exact (@entry_zip2 sub n m M N i j). Qed.

Lemma diags_shape (d : vec) : has_shape (length d) (length d) (diags d).
Proof.
  split.
  - unfold diags. rewrite length_map, length_seq. reflexivity.
  - apply Forall_forall. intros row Hin. unfold diags in Hin.
    apply in_map_iff in Hin. destruct Hin as [i [<- _]].
    rewrite length_map, length_seq. reflexivity.
Qed.

Lemma entry_diags (d : vec) (i j : nat) :
  i < length d -> j < length d ->
  entry (diags d) i j = if Nat.eqb i j then nth i d zero else zero.
Proof.
  intros Hi Hj. unfold entry, diags.
  rewrite nth_map_seq by exact Hi. rewrite nth_map_seq by exact Hj. reflexivity.
Qed.

Lemma nth_diagonal (n : nat) (M : matrix) (i : nat) :
  has_shape n n M -> i < n -> nth i (diagonal M) zero = entry M i i.
Proof.
  intros HM Hi. unfold diagonal.
  rewrite (has_shape_ncols HM) by lia. destruct HM as [-> _].
  rewrite Nat.min_id. rewrite nth_map_seq by exact Hi. reflexivity.
Qed.


Lemma SymmMat_from_shape (n : nat) (X : matrix) :
  has_shape n n X -> has_shape n n (SymmMat_from X).
Proof.
  intros HX. destruct n as [|n].
  - destruct X as [|row X]; [|destruct HX; discriminate].
    split; [reflexivity | constructor].
  - unfold SymmMat_from.
    apply msub_shape; [apply madd_shape|].
    + apply triu_shape, HX.
    + apply transpose_shape; [apply triu_shape, HX | lia].
    + pose proof (diags_shape (diagonal X)) as H.
      rewrite (diagonal_length HX) in H by lia. exact H.
Qed.

Lemma entry_SymmMat_from (n : nat) (X : matrix) (i j : nat) :
  has_shape n n X -> i < n -> j < n ->
  entry (SymmMat_from X) i j =
    if Nat.ltb i j then (entry X i j [+] zero) [-] zero
    else if Nat.eqb i j then (entry X i i [+] entry X i i) [-] entry X i i
    else (zero [+] entry X j i) [-] zero.
Proof.
  intros HX Hi Hj. assert (Hpos : 1 <= n) by lia.
  pose proof (triu_shape HX) as HU.
  pose proof (transpose_shape HU Hpos) as HUT.
  assert (HD : has_shape n n (diags (diagonal X))).
  { pose proof (diags_shape (diagonal X)) as H.
    rewrite (diagonal_length HX) in H by lia. exact H. }
  unfold SymmMat_from.
  rewrite (entry_msub (madd_shape HU HUT) HD Hi Hj).
  rewrite (entry_madd HU HUT Hi Hj).
  rewrite (entry_transpose HU Hi Hj).
  rewrite (entry_triu HX Hi Hj), (entry_triu HX Hj Hi).
  rewrite entry_diags by (rewrite (diagonal_length HX); lia).
  rewrite (nth_diagonal HX Hi).
  destruct (Nat.ltb_spec i j) as [Hlt|Hge].
  - destruct (Nat.ltb_spec j i); [lia|].
    destruct (Nat.eqb_spec i j); [lia|]. reflexivity.
  - destruct (Nat.eqb_spec i j) as [->|Hne].
    + destruct (Nat.ltb_spec j j); [lia|]. reflexivity.
    + destruct (Nat.ltb_spec j i); [|lia]. reflexivity.
Qed.

Lemma SymmMat_from_transpose (n : nat) (X : matrix) :
  has_shape n n X -> zero_commutes ->
  transpose (SymmMat_from X) = SymmMat_from X.
Proof.
  intros HX Hcomm. pose proof (SymmMat_from_shape HX) as HS.
  destruct n as [|n].
  - destruct X as [|row X]; [reflexivity | destruct HX; discriminate].
  - apply (matrix_ext (transpose_shape HS ltac:(lia)) HS).
    intros i j Hi Hj. rewrite (entry_transpose HS Hi Hj).
    rewrite (entry_SymmMat_from HX Hj Hi), (entry_SymmMat_from HX Hi Hj).
    destruct (Nat.ltb_spec i j) as [Hlt|Hge].
    + destruct (Nat.ltb_spec j i); [lia|].
      destruct (Nat.eqb_spec j i); [lia|]. rewrite Hcomm. reflexivity.
    + destruct (Nat.eqb_spec i j) as [->|Hne].
      * destruct (Nat.ltb_spec j j); [lia|]. rewrite Nat.eqb_refl. reflexivity.
      * destruct (Nat.ltb_spec j i); [|lia]. rewrite Hcomm. reflexivity.
Qed.

Lemma filter_none {X : Type} (p : X -> bool) (l : list X) :
  length (filter p l) = 0 <-> forall x, In x l -> p x = false.
Proof.
  induction l as [|a l IH]; simpl.
  - split; [intros _ x []|reflexivity].
  - destruct (p a) eqn:E; simpl.
    + split; [discriminate|]. intros H. specialize (H a (or_introl eq_refl)).
      congruence.
    + rewrite IH. split.
      * intros H x [<-|Hx]; [exact E | exact (H x Hx)].
      * intros H x Hx. apply H. right. exact Hx.
Qed.

Lemma nnz_zero (n m : nat) (M : matrix) :
  has_shape n m M ->
  (nnz M = 0 <->
   forall i j, i < n -> j < m -> eqb (entry M i j) zero = true).
Proof.
  intros HM. unfold nnz. rewrite filter_none. split.
  - intros H i j Hi Hj. apply negb_false_iff. apply H.
    apply in_concat. exists (nth i M []). destruct HM as [Hlen Hrows]. split.
    + apply nth_In. lia.
    + unfold entry. apply nth_In.
      rewrite Forall_forall in Hrows. rewrite (Hrows (nth i M [])); [exact Hj|].
      apply nth_In. lia.
  - intros H x Hx. apply in_concat in Hx. destruct Hx as (row & Hrow & Hx).
    destruct HM as [Hlen Hrows]. rewrite Forall_forall in Hrows.
    destruct (In_nth M row [] Hrow) as (i & Hi & Ei).
    destruct (In_nth row x zero Hx) as (j & Hj & Ej).
    rewrite (Hrows row Hrow) in Hj. apply negb_false_iff.
    rewrite <- Ej, <- Ei. apply (H i j); lia.
Qed.

(** X8: for every [n] by [n] sample [X], [SymmMat] returns an [n] by [n]
    matrix that keeps the part of [X] above the diagonal, mirrors it
    below, and has [(x + x) - x] on the diagonal for the diagonal entry
    [x] of [X]; where adding zero commutes, as it does in binary64, the
    matrix returned equals its transpose, which is what [main] asserts. *)
Theorem SymmMat_is_symmetric (n : nat) (X : matrix) :
  has_shape n n X ->
  has_shape n n (SymmMat_from X) /\
  (forall i j, i < n -> j < n ->
     entry (SymmMat_from X) i j =
       if Nat.ltb i j then (entry X i j [+] zero) [-] zero
       else if Nat.eqb i j then (entry X i i [+] entry X i i) [-] entry X i i
       else (zero [+] entry X j i) [-] zero) /\
  (zero_commutes -> transpose (SymmMat_from X) = SymmMat_from X).
Proof.
  intros HX. split; [exact (SymmMat_from_shape HX)|].
  split; [intros i j; apply (entry_SymmMat_from HX)|].
  exact (SymmMat_from_transpose HX).
Qed.

(** X9: under the two laws of binary64 that adding zero commutes and that
    [x - x == 0] exactly for the finite [x], the test
    [(A - A.T).nnz == 0] that [main] asserts on the matrix [A] returned
    by [SymmMat] holds exactly when every entry of [A] is finite: an
    infinity or a NaN in [A] fails the assertion although [A] equals its
    transpose. *)
Theorem symmetry_assertion_iff_finite (n : nat) (X : matrix) :
  has_shape n n X ->
  zero_commutes ->
  self_difference_tests_finite ->
  (symmetry_assertion (SymmMat_from X) = true <->
   forall i j, i < n -> j < n ->
     is_finite (entry (SymmMat_from X) i j) = true).
Proof.
  intros HX Hcomm Hfin. pose proof (SymmMat_from_shape HX) as HS.
  unfold symmetry_assertion.
  rewrite (SymmMat_from_transpose HX Hcomm), Nat.eqb_eq.
  rewrite (nnz_zero (msub_shape HS HS)).
  split; intros H i j Hi Hj.
  - rewrite <- Hfin, <- (entry_msub HS HS Hi Hj). exact (H i j Hi Hj).
  - rewrite (entry_msub HS HS Hi Hj), Hfin. exact (H i j Hi Hj).
Qed.

End SymmMat_facts.

(** ** Laws of binary64 arithmetic

    Proved from the specification of the primitive floats: multiplying
    by one and by minus one is exact, a finite number minus itself is
    [+0], and nothing but a NaN fails to exceed a negative number in
    absolute value. *)

Module Float64_laws.
Import Float64.
Local Open Scope float_scope.












Lemma negative_tolerance (tol x : float) :
  PrimFloat.ltb tol 0 = true ->
  PrimFloat.ltb tol (PrimFloat.abs x) = false ->
  PrimFloat.eqb x x = false.
Proof.
  rewrite !ltb_spec, FloatAxioms.eqb_spec, abs_spec.
  change (Prim2SF 0) with (S754_zero false).
  destruct (Prim2SF tol) as [s|s| |s m e]; try discriminate;
    destruct s; try discriminate; intros _;
    destruct (Prim2SF x) as [sx|sx| |sx mx ex]; try discriminate;
    try reflexivity.
Qed.

Lemma tolerance_met_by_NaN_only_float (tol : float) :
  PrimFloat.ltb tol 0 = true -> @tolerance_met_by_NaN_only scalar tol.
Proof.
  intros Hneg. split.
  - change (PrimFloat.ltb tol 1 = true). revert Hneg. rewrite !ltb_spec.
    change (Prim2SF 0) with (S754_zero false).
    change (Prim2SF 1) with (S754_finite false 4503599627370496 (-52)).
    destruct (Prim2SF tol) as [s|s| |s m e]; try discriminate;
      destruct s; try discriminate; reflexivity.
  - intros x Hx. exact (@negative_tolerance tol x Hneg Hx).
Defined.

End Float64_laws.

(** ** Runs in binary64 *)

Module Float64_runs.
Import Float64 Float64_inputs.

Ltac run := vm_compute; reflexivity.

(** [NSI] on [diag(2,1)]: [Q] stays the identity, so [lam] is [[2, 1]]
    in every pass: the first pass has residual [1], the second [0]. *)
Example NSI_diag21_converges :
  exists st,
    NSI_run 5 diag21 tol_default 5000 = Ret (st, ByTolerance) /\
    nsi_ctr st = 2%Z /\ nsi_lam st = Some [2; 1]%float.
Proof. eexists. split; [run | split; reflexivity]. Qed.

(** The vector returned is not sorted, and a run stopped by the cap
    returns the same vector as the run that converged. *)
Example NSI_diag21_unsorted_and_capped :
  NSI 5 diag21 tol_default 5000 = Ret [2; 1]%float /\
  sort [2; 1]%float = [1; 2]%float /\
  NSI 5 diag21 tol_default 1 = Ret [2; 1]%float /\
  (exists st, NSI_run 5 diag21 tol_default 1 = Ret (st, ByCap)).
Proof. repeat split; try run. eexists. run. Qed.

Lemma NSI_diag21_calls_succeed : NSI_calls_succeed diag21 tol_default 1.
Proof.
  intros k st Hk Hit. assert (k = 0) by lia. subst k.
  simpl in Hit. injection Hit as <-. split; eexists; run.
Defined.

Lemma NSI_stops_at_cap_witness :
  exists lam : vec, NSI 1 diag21 tol_default 1 = Ret lam.
Proof.
  assert (E : NSI 1 diag21 tol_default 1 = Ret [2; 1]%float) by run.
  destruct (@NSI_stops_at_cap scalar linalg diag21 tol_default 1%Z 1
              reference_comes_back ltac:(lia) ltac:(simpl; lia))
    as [(k & st & how & lam & H) | [(_ & _ & H) | (k & st & e & H)]].
  - exists lam. apply H.
  - rewrite E in H. discriminate.
  - destruct H as (_ & _ & _ & _ & H). rewrite E in H. discriminate.
Defined.

(** Two calls on square matrices with [maxiter = 1] that raise: with the
    tolerance [10] the first test is false and [lam] is unbound; a NaN
    entry makes [norm] raise [ValueError] in the first pass. *)
Lemma NSI_raises_on_square_input :
  is_square diag21 = true /\
  NSI 5 diag21 10%float 1 = Raise UnboundLocalError /\
  is_square [[nan]]%float = true /\
  NSI 5 [[nan]]%float tol_default 1 = Raise ValueError.
Proof. repeat split; run. Qed.

Lemma NSI_cap_needs_positive_maxiter_witness :
  exists st how,
    NSI_run 5 diag21 tol_default 0 = Ret (st, how) /\
    how = ByTolerance /\ NSI_guard tol_default st = Ret false.
Proof.
  assert (E : exists p, NSI_run 5 diag21 tol_default 0 = Ret p)
    by (eexists; run).
  destruct E as [[st how] E]. exists st, how. split; [exact E|].
  destruct (@NSI_cap_needs_positive_maxiter scalar linalg diag21 tol_default
              0%Z 5 st how ltac:(lia) E) as (H1 & H2 & _).
  split; assumption.
Defined.

Lemma NSI_returns_raw_diagonal_witness :
  exists (k : nat) (st : NSI_state),
    NSI_iter diag21 (S k) = Ret st /\
    [2; 1]%float =
      diagonal (matmul (matmul (transpose (nsi_Q st)) diag21) (nsi_Q st)).
Proof.
  destruct (@NSI_returns_raw_diagonal scalar linalg diag21 tol_default
              5000%Z 5 eq_refl) as [Hret _].
  destruct (Hret [2; 1]%float) as (k & st & H1 & H2 & _).
  - run.
  - exists k, st. split; assumption.
Defined.

(** With a tolerance the first test already meets, the loop is not
    entered and [return(lam)] finds [lam] unbound. *)
Example loops_not_entered :
  NSI 5 diag21 10%float 5000 = Raise UnboundLocalError /\
  IPI 5 one5 1%float 5000 = Raise UnboundLocalError.
Proof. split; run. Qed.

(** With [maxiter = 0] and a tolerance no residual meets, [NSI] is still
    running after 200 passes. *)
Example NSI_without_cap_keeps_running :
  NSI_run 200 diag21 (-1)%float 0 = OutOfFuel.
Proof. run. Qed.

(** [IPI] on [[5]] with [maxiter = 1]: two passes are made. *)
Example IPI_passes_exceed_maxiter :
  exists st,
    IPI_run 5 one5 tol_default 1 = Ret st /\
    ipi_passes st = 2 /\ ipi_lam st = Some 5%float.
Proof. eexists. split; [run | split; reflexivity]. Qed.

Lemma IPI_solve_failure_propagates_witness :
  IPI 1 singular_at_shift tol_default 5000 = Raise LinAlgError /\
  IPI 1 singular_at_shift tol_default 5000 = Raise LinAlgError.
Proof.
  destruct (@IPI_solve_failure_propagates scalar linalg singular_at_shift
              tol_default 5000%Z) as [Hany Hzero].
  split.
  - apply (Hany 1 0 (IPI_init singular_at_shift) 1%float LinAlgError).
    + reflexivity.
    + intros i sti Hi Hit. assert (i = 0) by lia. subst i.
      injection Hit as <-. reflexivity.
    + run.
    + run.
    + lia.
  - apply (Hzero 0 1%float).
    + reflexivity.
    + split; [discriminate|]. split; [reflexivity|].
      intros row [<-|[]]. reflexivity.
    + run.
Defined.

(** The shift [-3000] is an eigenvalue of [[-2951, 49], [49, -2951]], with
    eigenvector [1, -1]: the shifted matrix [[49, 49], [49, 49]] is
    singular.  Elimination leaves the pivot [49 - (49 * (1/49)) * 49],
    which is not zero in binary64, so [solve] returns and [IPI] returns
    [-3000]. *)
Lemma IPI_returns_on_singular_shifted_matrix :
  IPI_B shift_eigen2 = [[49; 49]; [49; 49]]%float /\
  matvec (IPI_B shift_eigen2) [1; -1]%float = [0; 0]%float /\
  matvec shift_eigen2 [1; -1]%float = smul (-3000)%float [1; -1]%float /\
  PrimFloat.eqb (49 - (49 * (1 / 49)) * 49)%float 0%float = false /\
  IPI 10 shift_eigen2 tol_default 5000 = Ret (-3000)%float.
Proof. repeat split; run. Qed.

(** C2, as stated, fails: for [A = [[5]]] a caller who chose the shift
    [5] would have [B = A - 5*I = [[0]]], a singular system; [IPI] forms
    [B = [[3005]]], from its own constant, and returns [5]. *)
Lemma IPI_shift_not_the_callers :
  IPI_B one5 = [[3005]]%float /\
  shifted_matrix one5 5%float = [[0]]%float /\
  IPI 5 one5 tol_default 5000 = Ret 5%float /\
  InversePowerEigenvalue 5 one5 5%float tol_default = Raise LinAlgError /\
  IPI 5 one5 tol_default 5000 <> InversePowerEigenvalue 5 one5 5%float tol_default.
Proof.
  assert (H1 : IPI 5 one5 tol_default 5000 = Ret 5%float) by run.
  assert (H2 : InversePowerEigenvalue 5 one5 5%float tol_default
               = Raise LinAlgError) by run.
  repeat split; try run; try assumption.
  rewrite H1, H2. discriminate.
Qed.

(** C1: on the 2 by 2 zero matrix the coefficient [b1] computed before
    the loop is [0], no test looks at it, the first pass divides [r] by
    it, and [norm] raises on the NaNs that result: [LanczosTri] neither
    returns [V] nor prints the warning. *)
Theorem LanczosTri_first_coefficient_unchecked :
  (exists st0,
     Lanczos_init zero2 = Ret st0 /\
     lz_b1 st0 = 0%float /\ eqb (lz_b1 st0) zero = true /\
     lz_V st0 = [[0x1.6a09e667f3bccp-1]; [0x1.6a09e667f3bccp-1]]%float /\
     vdiv (lz_r st0) (lz_b1 st0) = [nan; nan]%float /\
     Lanczos_step zero2 st0 = Raise ValueError) /\
  LanczosTri zero2 = Raise ValueError /\
  (forall V w, LanczosTri zero2 <> Ret {| returned := V; printed := w |}).
Proof.
  split; [|split].
  - eexists. split; [run|]. repeat split; run.
  - run.
  - intros V w H. assert (E : LanczosTri zero2 = Raise ValueError) by run.
    rewrite E in H. discriminate.
Qed.

(** The same on the 4 by 4 identity, where [q] is [[0.5, 0.5, 0.5, 0.5]]
    and every operation before the division is exact. *)
Example LanczosTri_identity4_raises :
  (exists st0, Lanczos_init identity4 = Ret st0 /\ lz_b1 st0 = 0%float) /\
  LanczosTri identity4 = Raise ValueError.
Proof. split; [eexists; split; run | run]. Qed.

(** A breakdown the loop does see: on [diag(1,1,3,3)] the first pass ends
    with [b1 == 0]; the warning is printed and the 4 by 2 basis returned. *)
Example LanczosTri_breakdown_seen :
  exists V,
    LanczosTri [[1; 0; 0; 0]; [0; 1; 0; 0]; [0; 0; 3; 0]; [0; 0; 0; 3]]%float
    = Ret {| returned := V; printed := [breakdown_warning] |} /\
    has_shape 4 2 V.
Proof.
  eexists. split; [run|]. split; [reflexivity | repeat constructor].
Qed.

Lemma sym2_passes_clean : Lanczos_passes_clean sym2 (2 - 1).
Proof.
  split.
  - eexists. run.
  - intros j Hj. assert (j = 1) by lia. subst j.
    eexists. split; run.
Defined.

Lemma LanczosTri_completes_witness :
  exists T : matrix,
    LanczosTri sym2 = Ret {| returned := T; printed := [] |} /\
    has_shape 2 2 T.
Proof.
  destruct (@LanczosTri_completes scalar linalg sym2 2) as [_ H].
  - split; [reflexivity | repeat constructor].
  - lia.
  - exact ref_qr_keeps_shape.
  - destruct (H sym2_passes_clean)
      as (nx & st0 & st & _ & _ & _ & _ & _ & _ & _ & Hrun & _ & HT & _).
    eexists. split; [exact Hrun | exact HT].
Defined.

(** On the symmetric [exact4] the coefficients are [4, 4, 4] and, after
    the last pass, [0]: all three passes are made and the basis has its
    four columns, yet the basis is returned with the warning, not [T].
    On [overflow2], symmetric with finite entries, [A @ q] overflows and
    [norm] raises [ValueError] before the loop. *)
Lemma LanczosTri_returns_basis_after_last_pass :
  transpose exact4 = exact4 /\
  map (Lanczos_b exact4) [0; 1; 2; 3] = [Some 4; Some 4; Some 4; Some 0]%float /\
  (exists V : matrix,
     LanczosTri exact4 = Ret {| returned := V; printed := [breakdown_warning] |} /\
     has_shape 4 4 V /\
     PrimFloat.eqb (entry V 3 3)
       (entry (matmul (matmul (transpose V) exact4) V) 3 3) = false) /\
  transpose overflow2 = overflow2 /\
  LanczosTri overflow2 = Raise ValueError.
Proof.
  split; [run|]. split; [run|]. split; [|split; run].
  eexists. split; [run|]. split; [split; [reflexivity | repeat constructor] | run].
Qed.

(** The one by one matrix [[1096]] in binary64, where every operation of
    the three kernels is exact. *)
Example one_by_one_binary64 :
  LanczosTri one1096 = Ret {| returned := [[1096]]%float; printed := [] |} /\
  NSI 3 one1096 tol_default 5000 = Ret [1096]%float /\
  IPI 3 one1096 tol_default 5000 = Ret 1096%float.
Proof. repeat split; run. Qed.

(** In binary64 [IPI] recovers [c] from [1/(1/(c + 3000)) - 3000], so up
    to the rounding of these operations: for [c = 0.1] the value returned
    is [0.1] to twelve digits. *)
Example IPI_rounds_in_binary64 :
  IPI 3 [[0x1.999999999999ap-4]]%float tol_default 5000
  = Ret 0x1.9999999998p-4%float.
Proof. run. Qed.

Lemma caller_store_holds : holds caller_store 0 (Arr2 diag21).
Proof. split; [simpl; lia|]. eexists. split; reflexivity. Defined.

(** On the store, [LanczosTri] hands back a reference that was free
    before the call. *)
Example LanczosTri_on_store_returns_new_object :
  exists l h',
    LanczosTri_on_store 0 caller_store = (Ret (l, []), h') /\
    next caller_store = 1 /\ 1 <= l /\
    cell h' 0 = Some (own (Arr2 diag21)).
Proof.
  do 2 eexists. split; [run|]. split; [reflexivity|]. split; [simpl; lia | reflexivity].
Qed.

Lemma kernels_leave_their_input_witness :
  holds (snd (NSI_on_store 5 0 tol_default 5000 caller_store)) 0 (Arr2 diag21) /\
  holds (snd (IPI_on_store 5 0 tol_default 5000 caller_store)) 0 (Arr2 diag21) /\
  holds (snd (LanczosTri_on_store 0 caller_store)) 0 (Arr2 diag21).
Proof.
  destruct (@kernels_leave_their_input scalar linalg caller_store 0 diag21
              caller_store_holds) as (_ & _ & _ & H12 & H3).
  destruct (H12 5 tol_default 5000%Z) as [H1 H2].
  split; [exact H1|]. split; [exact H2 | exact H3].
Defined.

End Float64_runs.

(** ** The one by one matrix in binary64 *)

Module Float64_single.
Import Float64 Float64_laws.
Local Open Scope float_scope.









(** Below the shift the iterate is negative and normalises to [-1]:
    [c = -5000], where the roundings cancel and [IPI] returns [c]. *)
Example single_entry_below_the_shift :
  (1 / (-5000 - -3000)) / PrimFloat.sqrt ((1 / (-5000 - -3000)) * (1 / (-5000 - -3000)))
    = -1 /\
  NSI 3 [[-5000]] tol_default 5000 = Ret [-5000] /\
  IPI 3 [[-5000]] tol_default 5000 = Ret (-5000).
Proof. repeat split; vm_compute; reflexivity. Qed.


End Float64_single.

(** ** One by one matrices in exact arithmetic *)

Module Exact_runs.
Import Exact.
Local Open Scope R_scope.

Lemma Reqb_refl (x : R) : Reqb x x = true.
Proof. unfold Reqb. destruct (Req_dec_T x x); congruence. Qed.

Lemma Reqb_neq (x y : R) : x <> y -> Reqb x y = false.
Proof. unfold Reqb. destruct (Req_dec_T x y); congruence. Qed.

Lemma Rgtb_true (x y : R) : x > y -> Rgtb x y = true.
Proof. unfold Rgtb. destruct (Rgt_dec x y); [reflexivity | contradiction]. Qed.

Lemma Rgtb_false (x y : R) : x <= y -> Rgtb x y = false.
Proof. unfold Rgtb. destruct (Rgt_dec x y); [lra | reflexivity]. Qed.

Lemma norm_single (x : R) : @norm scalar linalg [x] = Ret (Rabs x).
Proof.
  cbn -[IZR]. f_equal. change (x * x) with (Rsqr x). apply sqrt_Rsqr_abs.
Qed.

Lemma qr_single (x : R) : @qr scalar linalg [[x]] = Ret ([[1]], [[x]]).
Proof.
  cbn -[IZR]. rewrite sqrt_0, Reqb_refl. cbn -[IZR]. rewrite Reqb_refl. reflexivity.
Qed.

Lemma solve_single (b u : R) :
  b <> 0 -> @solve scalar linalg [[b]] [u] = Ret [u / b].
Proof.
  intros Hb. cbn -[IZR]. rewrite (Reqb_neq Hb). reflexivity.
Qed.

Lemma LanczosTri_single (c : R) :
  @LanczosTri scalar linalg [[c]] = Ret {| returned := [[c]]; printed := [] |}
  /\ (@shape0 scalar [[c]] - 1 = 0)%nat.
Proof.
  split; [|reflexivity].
  cbn -[IZR]. rewrite Rmult_1_r, sqrt_1. repeat f_equal. field.
Qed.

Lemma NSI_body_single (c p : R) (st : NSI_state) :
  nsi_Q st = [[1]] -> nsi_lprev st = [p] ->
  NSI_body [[c]] st =
    Ret {| nsi_Q := [[1]]; nsi_residual := Rabs (p - c); nsi_lprev := [c];
           nsi_ctr := nsi_ctr st + 1; nsi_lam := Some [c] |}.
Proof.
  intros HQ Hp. unfold NSI_body. rewrite HQ, Hp.
  cbn -[IZR norm qr]. rewrite qr_single. cbn -[IZR norm qr].
  rewrite norm_single. cbn -[IZR].
  replace (1 * c * 1) with c by ring. reflexivity.
Qed.

Lemma NSI_guard_exact (tol : R) (st : NSI_state) :
  NSI_guard tol st = Ret (Rgtb (Rabs (nsi_residual st)) tol).
Proof.
  unfold NSI_guard. rewrite norm_single. reflexivity.
Qed.

Lemma NSI_loop_S (fuel : nat) (A : matrix) (tol : R) (maxiter : Z) (st : NSI_state) :
  NSI_loop (S fuel) A tol maxiter st =
  bind (NSI_guard tol st) (fun go : bool =>
    if go then
      bind (NSI_body A st) (fun st' =>
        if (nsi_ctr st' =? maxiter)%Z then Ret (st', ByCap)
        else NSI_loop fuel A tol maxiter st')
    else Ret (st, ByTolerance)).
Proof. reflexivity. Qed.

Lemma NSI_single (c tol : R) (maxiter : Z) (fuel : nat) :
  0 <= tol < 10 -> (3 <= fuel)%nat ->
  NSI fuel [[c]] tol maxiter = Ret [c].
Proof.
  intros Htol Hfuel. destruct fuel as [|[|[|fuel]]]; try lia.
  unfold NSI, NSI_run.
  rewrite NSI_loop_S, NSI_guard_exact.
  change (@nsi_residual scalar (NSI_init _)) with 10.
  rewrite Rgtb_true by (rewrite Rabs_right; lra). cbn [bind].
  rewrite (@NSI_body_single c 1 (NSI_init ([[c]] : @matrix scalar)) eq_refl eq_refl). cbn [bind nsi_ctr].
  destruct (_ =? maxiter)%Z; [reflexivity|].
  rewrite NSI_loop_S, NSI_guard_exact. cbn [nsi_residual bind].
  destruct (Rgtb (Rabs (Rabs (1 - c))) tol); [|reflexivity].
  rewrite (@NSI_body_single c c); [|reflexivity|reflexivity]. cbn [bind nsi_ctr].
  destruct (_ =? maxiter)%Z; [reflexivity|].
  rewrite NSI_loop_S, NSI_guard_exact. cbn [nsi_residual bind].
  rewrite Rgtb_false; [reflexivity|].
  replace (c - c) with 0 by ring. rewrite !Rabs_R0. lra.
Qed.

Lemma IPI_B_single (c : R) : IPI_B [[c]] = [[c - IZR (-3000) * 1]].
Proof. reflexivity. Qed.

Lemma IPI_body_single (c x : R) (st : IPI_state) :
  c <> -3000 -> x <> 0 -> ipi_x st = [x] ->
  exists x',
    x' <> 0 /\
    IPI_body [[c]] st =
      Ret {| ipi_x := [x']; ipi_lam_old := c;
             ipi_err := Rabs (ipi_lam_old st - c); ipi_lam := Some c;
             ipi_passes := S (ipi_passes st) |}.
Proof.
  intros Hc Hx Hst.
  assert (Hb : c - IZR (-3000) * 1 <> 0) by lra.
  assert (Ha : Rabs x <> 0) by (apply Rabs_no_R0; exact Hx).
  exists (x / Rabs x / (c - IZR (-3000) * 1)). split.
  - unfold Rdiv. repeat apply Rmult_integral_contrapositive_currified; auto;
      apply Rinv_neq_0_compat; auto.
  - unfold IPI_body. rewrite Hst, norm_single. cbn -[IZR solve IPI_B].
    rewrite IPI_B_single, (solve_single _ Hb). cbn -[IZR].
    assert (Hl : 1 / (x / Rabs x * (x / Rabs x / (c - IZR (-3000) * 1))) + IZR (-3000) = c).
    { assert (Hsq : x * x = Rabs x * Rabs x).
      { destruct (Rcase_abs x) as [Hn|Hp].
        - rewrite (Rabs_left _ Hn). ring.
        - rewrite (Rabs_right _ Hp). ring. }
      replace (x / Rabs x * (x / Rabs x / (c - IZR (-3000) * 1)))
        with ((x * x) / (Rabs x * Rabs x) / (c - IZR (-3000) * 1))
        by (field; repeat split; first [assumption | lra]).
      rewrite Hsq. field. repeat split; first [assumption | lra]. }
    rewrite Hl. reflexivity.
Qed.

Lemma IPI_loop_S (fuel : nat) (A : matrix) (tol : R) (st : IPI_state) :
  IPI_loop (S fuel) A tol st =
  if Rgtb (ipi_err st) tol
  then bind (IPI_body A st) (IPI_loop fuel A tol)
  else Ret st.
Proof. reflexivity. Qed.

Lemma IPI_single (c tol : R) (maxiter : Z) (fuel : nat) :
  c <> -3000 -> 0 <= tol < 1 -> (3 <= fuel)%nat ->
  IPI fuel [[c]] tol maxiter = Ret c.
Proof.
  intros Hc Htol Hfuel. destruct fuel as [|[|[|fuel]]]; try lia.
  unfold IPI, IPI_run.
  rewrite IPI_loop_S.
  change (@ipi_err scalar (IPI_init _)) with 1.
  rewrite Rgtb_true by lra.
  destruct (@IPI_body_single c 1 (IPI_init ([[c]] : @matrix scalar)) Hc
              ltac:(lra) eq_refl) as (x1 & Hx1 & Hb1).
  rewrite Hb1. cbn [bind]. rewrite IPI_loop_S. cbn [ipi_err].
  destruct (Rgtb _ tol); [|reflexivity].
  match goal with |- context [IPI_body _ ?st] =>
    destruct (@IPI_body_single c x1 st Hc Hx1 eq_refl) as (x2 & Hx2 & Hb2)
  end.
  rewrite Hb2. cbn [bind ipi_lam_old]. rewrite IPI_loop_S. cbn [ipi_err].
  rewrite Rgtb_false; [reflexivity|].
  replace (c - c) with 0 by ring. rewrite Rabs_R0. lra.
Qed.

(** In exact arithmetic, for every [c], [LanczosTri] returns [[c]]
    for the matrix [[c]] after [init] alone, its loop making no pass;
    [NSI] returns [c] as its one entry and, when [c] is not the shift
    [-3000], [IPI] returns [c] (for a tolerance in [0, 1), which the
    default [1E-14] is, and any [maxiter]). *)
Theorem one_by_one (c tol : R) (maxiter : Z) (fuel : nat) :
  0 <= tol < 1 -> c <> -3000 -> (3 <= fuel)%nat ->
  @LanczosTri scalar linalg [[c]] = Ret {| returned := [[c]]; printed := [] |} /\
  (exists st0, Lanczos_init [[c]] = Ret st0 /\ lz_ctr st0 = 0%Z /\
               @LanczosTri scalar linalg [[c]] = Lanczos_loop 0 [[c]] st0) /\
  NSI fuel [[c]] tol maxiter = Ret [c] /\
  IPI fuel [[c]] tol maxiter = Ret c.
Proof.
  intros Htol Hc Hfuel. split; [apply LanczosTri_single|]. split.
  - unfold LanczosTri.
    destruct (@Lanczos_init scalar linalg [[c]]) as [st0| |] eqn:E.
    + exists st0. split; [reflexivity|]. split; [|reflexivity].
      apply Lanczos_init_inv in E. destruct E as (nx & E). apply E.
    + cbn -[IZR] in E. discriminate.
    + cbn -[IZR] in E. discriminate.
  - split; [apply NSI_single; [lra | exact Hfuel] | apply IPI_single; assumption].
Qed.

Lemma one_by_one_witness :
  @LanczosTri scalar linalg [[5]] = Ret {| returned := [[5]]; printed := [] |} /\
  @NSI scalar linalg 3 [[5]] tol_default 5000 = Ret [5] /\
  @IPI scalar linalg 3 [[5]] tol_default 5000 = Ret 5.
Proof.
  assert (Htol : 0 <= @tol_default scalar < 1).
  { change (@tol_default scalar) with (1 / 10 ^ 14).
    assert (Hy : 1 < 10 ^ 14) by (apply Rlt_pow_R1; [lra | lia]).
    generalize dependent (10 ^ 14). intros y Hy. split.
    - apply Rlt_le, Rdiv_lt_0_compat; lra.
    - apply (Rmult_lt_reg_r y); [lra|].
      unfold Rdiv. rewrite Rmult_assoc, Rinv_l by lra. lra. }
  destruct (@one_by_one 5 (@tol_default scalar) 5000%Z 3 Htol ltac:(lra) ltac:(lia))
    as (H1 & _ & H2 & H3).
  repeat split; assumption.
Defined.

End Exact_runs.

(** ** Further runs in binary64 *)

Module Float64_more.
Import Float64 Float64_inputs Float64_laws.

Ltac run := vm_compute; reflexivity.

Lemma float_zero_commutes : @zero_commutes scalar.
Proof.
  intros x. change (PrimFloat.add x 0 = PrimFloat.add 0 x)%float.
  apply Prim2SF_inj. rewrite !add_spec.
  change (Prim2SF 0) with (S754_zero false).
  destruct (Prim2SF x) as [s|s| |s m e]; try reflexivity.
  destruct s; reflexivity.
Defined.

Lemma float_sub_self (x : spec_float) :
  SFeqb (SF64sub x x) (S754_zero false) =
  match x with S754_infinity _ | S754_nan => false | _ => true end.
Proof.
  destruct x as [s|s| |s m e]; try reflexivity; try (destruct s; reflexivity).
  unfold SF64sub, SFsub. cbv zeta.
  replace (IntDef.Z.min e e) with e by (symmetry; apply Z.min_id).
  assert (D : forall a, IntDef.Z.sub a a = 0%Z) by (intros a; exact (Z.sub_diag a)).
  unfold shl_align. rewrite D. reflexivity.
Defined.

Lemma float_self_difference : @self_difference_tests_finite scalar.
Proof.
  intros x. change (PrimFloat.eqb (PrimFloat.sub x x) 0 = finite x)%float.
  rewrite FloatAxioms.eqb_spec, sub_spec. unfold finite. rewrite classify_spec.
  change (Prim2SF 0) with (S754_zero false).
  rewrite float_sub_self.
  destruct (Prim2SF x) as [s|s| |s m e]; try reflexivity; try (destruct s; reflexivity).
  unfold SF64classify, SFclassify.
  destruct s; destruct (Z.pos (digits2_pos m) =? prec)%Z; reflexivity.
Defined.

Lemma NSI_ends_within_cap_witness :
  NSI_run 2 diag21 tol_default 2 <> OutOfFuel.
Proof.
  apply (@NSI_ends_within_cap scalar linalg diag21 tol_default 2%Z 2).
  - exact reference_comes_back.
  - lia.
  - simpl; lia.
Defined.

Lemma IPI_returns_through_NaN_only_witness :
  exists (k : nat) (prev st : IPI_state),
    IPI_iter astride4 k = Ret prev /\
    IPI_body astride4 prev = Ret st /\
    IPI_run 10 astride4 (-1)%float 5000 = Ret st /\
    ipi_lam st = Some infinity /\
    ipi_err st = PrimFloat.abs (ipi_lam_old prev - infinity) /\
    PrimFloat.eqb (ipi_lam_old prev - infinity) (ipi_lam_old prev - infinity) = false.
Proof.
  apply (@IPI_returns_through_NaN_only scalar linalg astride4 (-1)%float 5000%Z 10
           infinity).
  - apply tolerance_met_by_NaN_only_float. reflexivity.
  - run.
Defined.

Lemma NSI_returns_n_values_witness :
  length [2; 1]%float = 2.
Proof.
  apply (@NSI_returns_n_values scalar linalg diag21 2 tol_default 5000%Z 5
           [2; 1]%float).
  - split; [reflexivity | repeat constructor].
  - lia.
  - exact ref_qr_keeps_shape.
  - run.
Defined.



(** [SymmMat] on the sample [[1, 2], [3, 4]]. *)
Example SymmMat_sample2 :
  SymmMat_from sample2 = [[1; 2]; [2; 4]]%float.
Proof. run. Qed.

Lemma SymmMat_is_symmetric_witness :
  has_shape 2 2 (SymmMat_from sample2) /\
  transpose (SymmMat_from sample2) = SymmMat_from sample2.
Proof.
  destruct (@SymmMat_is_symmetric scalar 2 sample2) as (H1 & _ & H3).
  - split; [reflexivity | repeat constructor].
  - split; [exact H1 | exact (H3 float_zero_commutes)].
Defined.

Lemma symmetry_assertion_iff_finite_witness :
  symmetry_assertion (SymmMat_from sample2) = true <->
  forall i j, i < 2 -> j < 2 ->
    finite (entry (SymmMat_from sample2) i j) = true.
Proof.
  apply (@symmetry_assertion_iff_finite scalar 2 sample2).
  - split; [reflexivity | repeat constructor].
  - exact float_zero_commutes.
  - exact float_self_difference.
Defined.

(** A diagonal entry whose double overflows: the matrix returned has an
    infinity on the diagonal and fails the assertion of [main]. *)
Example symmetry_assertion_fails_on_overflow :
  symmetry_assertion (SymmMat_from [[0x1p1023]]%float) = false.
Proof. run. Qed.

(** In binary64 the matrix [T] returned for the symmetric [[2, 1], [1, 3]]
    is not symmetric: its two off-diagonal entries differ in the last
    places. *)
Example T_not_symmetric_in_binary64 :
  match LanczosTri sym2 with
  | Ret res =>
      Some (printed res,
            PrimFloat.eqb (entry (returned res) 0 1) (entry (returned res) 1 0))
  | _ => None
  end = Some ([], false).
Proof. run. Qed.

End Float64_more.

(** ** Further runs in exact arithmetic *)

Module Exact_more.
Import Exact.
Local Open Scope R_scope.

Lemma negative_residual_out_of_reach :
  @residual_out_of_reach scalar linalg (-1).
Proof.
  intros x nr H. rewrite Exact_runs.norm_single in H. injection H as <-.
  apply Exact_runs.Rgtb_true. pose proof (Rabs_pos x). lra.
Defined.

Lemma NSI_runs_on_without_cap_witness :
  @NSI scalar linalg 50 [[5]] (-1) 0 <> Ret [5].
Proof.
  apply (@NSI_runs_on_without_cap scalar linalg [[5]] (-1) 0%Z 50 [5]).
  - lia.
  - exact negative_residual_out_of_reach.
Defined.

End Exact_more.
